(** * mbox_split: routing of a Gmail Takeout mbox by X-Gmail-Labels

    A shallow embedding of [src/mbox_split.py] and the properties of its
    name sanitizer ([safe_label]), of the label classification done in the
    body of the loop of [main], and of the run state ([boxes], [box_for] and
    the [finally] block).

    Python strings are modelled as lists of 8-bit characters read as the
    code points 0..255: on those the operations below are the ones of
    CPython's [str] ([strip], [lower], [upper], [replace], slicing) and of
    the regular expression [_ILLEGAL].

    The [mailbox] and [email] libraries are not part of the script.  A
    message is what the loop reads of it (its bytes and its label header,
    which [msg.get] hands out as [None], as a [str], or as a [Header]
    object when it holds a byte above 127), a box is the list of the byte
    strings given to its [add], with what a call of [add] that raised has
    left behind them, and the calls that can raise do so as the script of
    the run and the fate of each box say: the run is a function of these. *)

From Stdlib Require Import String Ascii List ZArith NArith Bool Lia.
Import ListNotations.

Set Implicit Arguments.

(** ** Python [str] on the code points below 256 *)

Module Py.

Definition str := list ascii.

(** A string literal of the source. *)
Definition py (s : string) : str := list_ascii_of_string s.

Definition code (c : ascii) : N := N_of_ascii c.

Definition between (lo hi n : N) : bool := ((lo <=? n) && (n <=? hi))%N.

(** [c.isspace()]: the characters removed by [str.strip()] without
    argument.  Below 256 these are TAB..CR, FS..US, the space, NEL (0x85)
    and the no-break space (0xA0). *)
Definition isspace (c : ascii) : bool :=
  let n := code c in
  between 9 13 n || between 28 32 n || (n =? 133)%N || (n =? 160)%N.

(** [c.lower()] for one character: A-Z and the Latin-1 capitals
    0xC0-0xDE (but the multiplication sign 0xD7) move up by 32. *)
Definition lower_char (c : ascii) : ascii :=
  let n := code c in
  if between 65 90 n || between 192 214 n || between 216 222 n
  then ascii_of_N (n + 32) else c.

Definition lower (s : str) : str := map lower_char s.

(** [c.upper()] for one character, as code points: three characters below
    256 leave the range (the micro sign and y with diaeresis) or grow
    (sharp s becomes SS). *)
Definition upper_char (c : ascii) : list N :=
  let n := code c in
  if between 97 122 n || between 224 246 n || between 248 254 n
  then [(n - 32)%N]
  else if (n =? 181)%N then [924%N]
  else if (n =? 223)%N then [83%N; 83%N]
  else if (n =? 255)%N then [376%N]
  else [n].

Definition upper (s : str) : list N := flat_map upper_char s.

Definition codes (s : str) : list N := map code s.

(** [s.lstrip(chars)], [s.rstrip(chars)] and [s.strip(chars)], the set of
    characters given as a predicate. *)
Fixpoint lstrip_by (p : ascii -> bool) (s : str) : str :=
  match s with
  | [] => []
  | c :: r => if p c then lstrip_by p r else s
  end.

Definition rstrip_by (p : ascii -> bool) (s : str) : str :=
  rev (lstrip_by p (rev s)).

Definition strip_by (p : ascii -> bool) (s : str) : str :=
  rstrip_by p (lstrip_by p s).

(** [s.strip()] *)
Definition strip (s : str) : str := strip_by isspace s.

Definition mem_chars (chars : str) (c : ascii) : bool :=
  existsb (Ascii.eqb c) chars.

(** [s.strip(chars)] and [s.rstrip(chars)] *)
Definition strip_chars (chars : str) (s : str) : str :=
  strip_by (mem_chars chars) s.

Definition rstrip_chars (chars : str) (s : str) : str :=
  rstrip_by (mem_chars chars) s.

Definition dot : ascii := "."%char.

(** [s.replace("..", ".")]: one pass from the left over the occurrences
    that do not overlap. *)
Fixpoint replace_dotdot (s : str) : str :=
  match s with
  | [] => []
  | c :: r =>
      match r with
      | d :: r' =>
          if Ascii.eqb c dot && Ascii.eqb d dot
          then dot :: replace_dotdot r'
          else c :: replace_dotdot r
      | [] => [c]
      end
  end.

(** [s[:n]] for any integer [n]: a negative bound counts from the end. *)
Definition slice_to (s : str) (n : Z) : str :=
  if (0 <=? n)%Z then firstn (Z.to_nat n) s
  else firstn (Z.to_nat (Z.of_nat (length s) + n)) s.

(** [s.startswith(p)] and [p in s] *)
Fixpoint startswith (p s : str) : bool :=
  match p, s with
  | [], _ => true
  | _ :: _, [] => false
  | a :: p', b :: s' => Ascii.eqb a b && startswith p' s'
  end.

Fixpoint contains (p s : str) : bool :=
  startswith p s ||
  match s with
  | [] => false
  | _ :: r => contains p r
  end.

(** [s.split(sep)] for a separator of one character: never empty. *)
Fixpoint split (sep : ascii) (s : str) : list str :=
  match s with
  | [] => [[]]
  | c :: r =>
      if Ascii.eqb c sep then [] :: split sep r
      else match split sep r with
           | h :: t => (c :: h) :: t
           | [] => [[c]]
           end
  end.

Definition str_eqb (a b : str) : bool :=
  if list_eq_dec ascii_dec a b then true else false.

Definition codes_eqb (a b : list N) : bool :=
  if list_eq_dec N.eq_dec a b then true else false.

(** The first character of [s], if any, is not one that [p] strips; the
    same for the last one. *)
Definition head_ok (p : ascii -> bool) (s : str) : bool :=
  match s with
  | [] => true
  | c :: _ => negb (p c)
  end.

Definition last_ok (p : ascii -> bool) (s : str) : bool := head_ok p (rev s).

(** [p] occurs in [s]: what [p in s] decides. *)
Definition occurs_in (p s : str) : Prop := exists a b, s = a ++ p ++ b.

(** [sep.join(parts)] for a separator of one character. *)
Fixpoint join (sep : ascii) (parts : list str) : str :=
  match parts with
  | [] => []
  | p :: rest =>
      match rest with
      | [] => p
      | _ :: _ => p ++ sep :: join sep rest
      end
  end.

End Py.

Import Py.

(** ** The name sanitizer (lines 11-27) *)

(** [_ILLEGAL] (line 12): the class of the characters < > : / \ | ? *,
    the double quote (code 34) and the controls 0x00-0x1f. *)
Definition _ILLEGAL (c : ascii) : bool :=
  mem_chars (py "<>:" ++ [ascii_of_N 34] ++ py "/\|?*") c
  || between 0 31 (code c).

(** [_ILLEGAL.sub(".", label)] *)
Definition sub_illegal (s : str) : str :=
  map (fun c => if _ILLEGAL c then dot else c) s.

(** [_RESERVED] *)
Definition _RESERVED : list (list N) :=
  map (fun s => codes (py s))
    ["CON"; "PRN"; "AUX"; "NUL";
     "COM1"; "COM2"; "COM3"; "COM4"; "COM5"; "COM6"; "COM7"; "COM8"; "COM9";
     "LPT1"; "LPT2"; "LPT3"; "LPT4"; "LPT5"; "LPT6"; "LPT7"; "LPT8"; "LPT9"]%string.

(** [label.upper() in _RESERVED] *)
Definition reserved (label : str) : bool :=
  existsb (codes_eqb (upper label)) _RESERVED.

Definition is_empty (s : str) : bool :=
  match s with [] => true | _ => false end.

Definition space_dot : str := py " .".

(** Lines 18-22: the label stripped, its illegal characters replaced, the
    pairs of periods collapsed, the spaces and periods of its ends
    removed, and [Archive] if nothing is left. *)
Definition cleaned (label : str) : str :=
  let label := strip label in
  let label := sub_illegal label in
  let label := strip_chars space_dot (replace_dotdot label) in
  let label := if is_empty label then py "Archive" else label in
  label.

(** Lines 23-24: the name when the length test of line 25 is reached. *)
Definition named (label : str) : str :=
  let label := cleaned label in
  let label := if reserved label then "_"%char :: label else label in
  label.

(** [safe_label(label, maxlen)] *)
Definition safe_label (label : str) (maxlen : Z) : str :=
  let label := named label in
  let label :=
    if (Z.of_nat (length label) >? maxlen)%Z
    then rstrip_chars space_dot (slice_to label maxlen)
    else label in
  label.

(** The default of the parameter [maxlen]. *)
Definition maxlen_default : Z := 120.

(** [safe_label(label)]: the sanitizer with its default bound. *)
Definition sanitize (label : str) : str := safe_label label maxlen_default.

(** No character of [s] is matched by [_ILLEGAL]. *)
Definition legal (s : str) : Prop := Forall (fun c => _ILLEGAL c = false) s.

(** The characters of space and period, the argument of [strip] at line 20 and of
    [rstrip] at line 26. *)
Definition sd : ascii -> bool := mem_chars space_dot.

(** ** The routing of one message (lines 53-57 and 67-96) *)

(** The destination chosen by one iteration of the loop: one of the five
    file names computed before the loop ([inbox_fn], [sent_fn],
    [archive_fn], [spam_fn], [trash_fn]) or the name built at line 91 from
    a label. *)
Inductive bucket : Type :=
  | Inbox
  | Sent
  | Archive
  | Spam
  | Trash
  | Custom (name : str).

(** [ignored] (line 85) *)
Definition ignored : list str :=
  map py ["important"; "unread"; "starred"; "newsletters"]%string.

(** The test of line 89: [ll in ignored or not ll] with
    [ll = label.lower()]. *)
Definition skipped (label : str) : bool :=
  let ll := lower label in
  existsb (str_eqb ll) ignored || is_empty ll.

(** The [for] loop of lines 87-94: it stops at the first label that is not
    skipped. *)
Fixpoint first_kept (parts : list str) : option str :=
  match parts with
  | [] => None
  | label :: rest => if skipped label then first_kept rest else Some label
  end.

Definition comma : ascii := ","%char.

(** The generator of line 87: [(l.strip() for l in labels.split(","))] *)
Definition parts_of (labels : str) : list str :=
  map strip (split comma labels).

(** What the specification says of a part: [t] is the piece [p] without
    the white space at its two ends. *)
Definition trimmed (p t : str) : Prop :=
  exists ws1 ws2,
    p = ws1 ++ t ++ ws2 /\
    Forall (fun c => isspace c = true) ws1 /\
    Forall (fun c => isspace c = true) ws2 /\
    head_ok isspace t = true /\ last_ok isspace t = true.

(** Lines 67-96, [labels] being the value of [msg.get("X-Gmail-Labels")]
    when it is [None] or a [str]. *)
Definition classify (labels : option str) : bucket :=
  match labels with
  | None => Archive
  | Some labels =>
      if is_empty labels then Archive
      else
        let labels_lc := lower labels in
        if contains (py "spam") labels_lc then Spam
        else if contains (py "trash") labels_lc then Trash
        else if contains (py "inbox") labels_lc then Inbox
        else if contains (py "sent") labels_lc then Sent
        else
          match first_kept (parts_of labels) with
          | Some label => Custom (sanitize label)
          | None => Archive
          end
  end.

(** The words looked for at lines 76-82, in the order of the tests. *)
Definition system_words : list str :=
  map py ["spam"; "trash"; "inbox"; "sent"]%string.

(** None of them occurs in the lower case of [labels]: the [else] branch
    of line 84 is taken. *)
Definition system_free (labels : str) : Prop :=
  forall w, In w system_words -> ~ occurs_in w (lower labels).

(** Lines 53-57 and 91: the file name of a destination. *)
Definition filename (prefix : str) (b : bucket) : str :=
  match b with
  | Inbox => prefix ++ py "Inbox.mbox"
  | Sent => prefix ++ py "Sent.mbox"
  | Archive => prefix ++ py "Archive.mbox"
  | Spam => prefix ++ py "Spam.mbox"
  | Trash => prefix ++ py "Trash.mbox"
  | Custom name => (prefix ++ name) ++ py ".mbox"
  end.

(** The name a destination shows in its file name. *)
Definition display (b : bucket) : str :=
  match b with
  | Inbox => py "Inbox"
  | Sent => py "Sent"
  | Archive => py "Archive"
  | Spam => py "Spam"
  | Trash => py "Trash"
  | Custom name => name
  end.

Definition route (prefix : str) (labels : option str) : str :=
  filename prefix (classify labels).

(** ** The run state (lines 47-52) and the loop (lines 61-100) *)

Definition bytes := list Byte.byte.

(** What the loop reads of a message: [src.get_bytes(key, from_=True)],
    and the value that the parser of [src.get_message(key)] holds for the
    header [X-Gmail-Labels], [None] without the header; a byte of the
    header line above 127 stands in it as the character of that number. *)
Record message : Type := Message {
  raw : bytes;
  labels : option str
}.

(** [s.isascii()] *)
Definition isascii (s : str) : bool :=
  forallb (fun c => (code c <? 128)%N) s.

(** What [msg.get("X-Gmail-Labels")] returns at line 67.  The messages of
    a [mailbox.mbox] have the policy [compat32], whose
    [header_fetch_parse] hands out the value as a [str] when it holds no
    byte above 127, and else an [email.header.Header] object made of it. *)
Inductive fetched : Type :=
  | NoHeader
  | Str (s : str)
  | Header (s : str).

Definition get (m : message) : fetched :=
  match labels m with
  | None => NoHeader
  | Some s => if isascii s then Str s else Header s
  end.

(** Line 67 gives [None] or a [str]. *)
Definition plain (m : message) : bool :=
  match get m with
  | Header _ => false
  | _ => true
  end.

(** Lines 67-96 for one message: the file its bytes are to go to.  A
    [Header] object is true at line 68 (the class has neither [__bool__]
    nor [__len__]) and has no method [lower]: line 73 raises
    [AttributeError], and there is no file. *)
Definition target (prefix : str) (m : message) : option str :=
  match get m with
  | NoHeader => Some (route prefix None)
  | Str s => Some (route prefix (Some s))
  | Header _ => None
  end.

(** A [mailbox.mbox] opened for output: [ident] tells the objects apart
    (it counts the boxes opened before this one), [added] holds the
    arguments of its [add] calls that returned, oldest first, and [torn]
    the bytes that a call of [add] that raised has left in the file behind
    them. *)
Record mbox : Type := Mbox {
  ident : nat;
  added : list bytes;
  torn : bytes
}.

(** A Python [dict] with [str] keys: the items in insertion order. *)
Module Dict.

Definition t (V : Type) := list (str * V).

Fixpoint get {V} (k : str) (d : t V) : option V :=
  match d with
  | [] => None
  | (k', v) :: r => if str_eqb k k' then Some v else get k r
  end.

(** [k in d] *)
Definition mem {V} (k : str) (d : t V) : bool :=
  match get k d with Some _ => true | None => false end.

(** [d[k] = v] *)
Fixpoint set {V} (k : str) (v : V) (d : t V) : t V :=
  match d with
  | [] => [(k, v)]
  | (k', v') :: r =>
      if str_eqb k k' then (k', v) :: r else (k', v') :: set k v r
  end.

(** [d.keys()], in the order of insertion, which is also the order of
    [d.values()]. *)
Definition keys {V} (d : t V) : list str := map fst d.

End Dict.

(** [boxes] and the calls [mailbox.mbox(filename, create=True)] made so
    far, oldest first. *)
Record state : Type := State {
  boxes : Dict.t mbox;
  opened : list str
}.

Definition init : state := State [] [].

(** [box_for(filename, boxes)]: the state after the call; the box returned
    is [boxes[filename]] of that state. *)
Definition box_for (fn : str) (st : state) : state :=
  if Dict.mem fn (boxes st) then st
  else State (Dict.set fn (Mbox (List.length (opened st)) [] []) (boxes st))
             (opened st ++ [fn]).

(** [boxes[filename].add(raw)]: the box is shared with the dict. *)
Definition add (fn : str) (r : bytes) (st : state) : state :=
  match Dict.get fn (boxes st) with
  | Some b => State (Dict.set fn (Mbox (ident b) (added b ++ [r]) (torn b))
                              (boxes st))
                    (opened st)
  | None => st
  end.

(** [boxes[filename].add(raw)] when it raises and leaves [stub] in the
    file. *)
Definition spill (fn : str) (stub : bytes) (st : state) : state :=
  match Dict.get fn (boxes st) with
  | Some b => State (Dict.set fn (Mbox (ident b) (added b) (torn b ++ stub))
                              (boxes st))
                    (opened st)
  | None => st
  end.

(** What a file has received. *)
Definition contents (fn : str) (st : state) : list bytes :=
  match Dict.get fn (boxes st) with
  | Some b => added b
  | None => []
  end.

(** What calls of [add] that raised have left in a file. *)
Definition leftover (fn : str) (st : state) : bytes :=
  match Dict.get fn (boxes st) with
  | Some b => torn b
  | None => []
  end.

(** A call of the loop body that raises: reading the message
    ([src.get_message], [src.get_bytes]), opening a box that is not in
    [boxes] yet, or [add].  When [add] raises, the bytes [stub] stay in the
    file: none when the writing itself raised, for [_append_message] then
    cuts the file back to its length before the call; but its last
    statement, [self._file.flush()], is outside that [try], and when it
    raises, what of the record had reached the file stays there. *)
Inductive fault : Type :=
  | ReadFails
  | OpenFails
  | AddFails (stub : bytes).

(** One key of [src.iterkeys()]: the message found there, and what fails
    while it is handled, if anything does. *)
Record item : Type := Item {
  msg : message;
  failing : option fault
}.

(** How a block of statements is left. *)
Inductive exit : Type :=
  | Completed
  | Raised.

(** The body of the loop (lines 64-100). *)
Definition iteration (prefix : str) (it : item) (st : state) : state * exit :=
  match failing it with
  | Some ReadFails => (st, Raised)
  | f =>
      match target prefix (msg it) with
      | None => (st, Raised)
      | Some fn =>
          match f, Dict.mem fn (boxes st) with
          | Some OpenFails, false => (st, Raised)
          | _, _ =>
              let st := box_for fn st in
              match f with
              | Some (AddFails stub) => (spill fn stub st, Raised)
              | _ => (add fn (raw (msg it)) st, Completed)
              end
          end
      end
  end.

(** The [for] loop of line 63: an exception ends it. *)
Fixpoint loop (prefix : str) (script : list item) (st : state) : state * exit :=
  match script with
  | [] => (st, Completed)
  | it :: rest =>
      match iteration prefix it st with
      | (st', Completed) => loop prefix rest st'
      | (st', Raised) => (st', Raised)
      end
  end.

(** No call fails while the message is handled. *)
Definition quiet (m : message) : item := Item m None.

(** The messages in front of the first one whose label header is a
    [Header] object; all of them when there is none. *)
Fixpoint readable (msgs : list message) : list message :=
  match msgs with
  | [] => []
  | m :: rest => if plain m then m :: readable rest else []
  end.

(** ** The [finally] block (lines 102-110) *)

(** How [b.flush()] ends: an exception of class [Exception] is caught at
    line 107, any other one ([KeyboardInterrupt], ...) is not. *)
Inductive flush_end : Type :=
  | FlushReturns
  | FlushRaisesException
  | FlushRaisesOther.

(** What the calls on one box do when the run is torn down. *)
Record fate : Type := Fate {
  flush_ends : flush_end;
  close_raises : bool
}.

(** The calls made by the [finally] block, oldest first; a call that
    raises is in the list. *)
Inductive call : Type :=
  | Flush (fn : str)
  | Close (fn : str)
  | CloseSrc.

(** The [for] loop of lines 104-109, over the boxes in the order of
    [boxes.values()], each named by its key. *)
Fixpoint close_boxes (io : str -> fate) (fns : list str) : list call * exit :=
  match fns with
  | [] => ([], Completed)
  | fn :: rest =>
      match flush_ends (io fn) with
      | FlushRaisesOther => ([Flush fn], Raised)
      | _ =>
          if close_raises (io fn) then ([Flush fn; Close fn], Raised)
          else
            let (t, e) := close_boxes io rest in
            (Flush fn :: Close fn :: t, e)
      end
  end.

(** Lines 103-110. *)
Definition finally (io : str -> fate) (st : state) : list call * exit :=
  match close_boxes io (Dict.keys (boxes st)) with
  | (t, Completed) => (t ++ [CloseSrc], Completed)
  | (t, Raised) => (t, Raised)
  end.

(** Lines 52-110 of [main]: the state the loop leaves, the calls of the
    [finally] block, and whether an exception leaves [main]. *)
Definition main (prefix : str) (script : list item) (io : str -> fate)
  : state * list call * exit :=
  let (st, e1) := loop prefix script init in
  let (t, e2) := finally io st in
  (st, t, match e1, e2 with Completed, Completed => Completed | _, _ => Raised end).

(** No [close] raises and no [flush] raises past line 107. *)
Definition calm (io : str -> fate) : Prop :=
  forall fn, close_raises (io fn) = false /\ flush_ends (io fn) <> FlushRaisesOther.

Definition all_fine (fn : str) : fate := Fate FlushReturns false.

(** The state in which the loop is left, from the empty [boxes]. *)
Definition reached (prefix : str) (script : list item) : state :=
  fst (loop prefix script init).

(** The boxes of [st] are still in [st'], the same objects. *)
Definition kept (st st' : state) : Prop :=
  forall fn b, Dict.get fn (boxes st) = Some b ->
  exists b', Dict.get fn (boxes st') = Some b' /\ ident b' = ident b.

(** The state is as [box_for] builds it: the keys of [boxes] are the files
    opened, in order, none twice, and the box of a file is the one its
    opening made. *)
Definition consistent (st : state) : Prop :=
  Dict.keys (boxes st) = opened st /\
  NoDup (opened st) /\
  forall fn b, Dict.get fn (boxes st) = Some b ->
    nth_error (opened st) (ident b) = Some fn.

(** The calls of a [finally] block in which nothing raises past
    line 107 and no [close] raises. *)
Definition all_closed (fns : list str) : list call :=
  flat_map (fun fn => [Flush fn; Close fn]) fns ++ [CloseSrc].

(** A run with two messages, one for the inbox and one for the sent
    mail, and a disk that is full when the run is torn down: on the first
    box [flush] raises [OSError], and so does [close]. *)
Definition two_messages : list item :=
  [quiet (Message [Byte.x46; Byte.x72; Byte.x6f; Byte.x6d; Byte.x20; Byte.x61; Byte.x0a]
                  (Some (py "Inbox")));
   quiet (Message [Byte.x46; Byte.x72; Byte.x6f; Byte.x6d; Byte.x20; Byte.x62; Byte.x0a]
                  (Some (py "Sent")))].

(** The label [Café] as the bytes of its UTF-8 form. *)
Definition cafe : str :=
  py "Caf" ++ [ascii_of_N 195; ascii_of_N 169].

(** A run with three messages in which no call fails: the first has the
    label [Inbox], the second the label [Café], written in the header line
    as it is, and the third the label [Sent]. *)
Definition three_messages : list item :=
  [quiet (Message [Byte.x61] (Some (py "Inbox")));
   quiet (Message [Byte.x62] (Some cafe));
   quiet (Message [Byte.x63] (Some (py "Sent")))].

(** A run torn down while the second box is flushed: on the first box
    [flush] raises [OSError], which is caught, and on the second one
    [KeyboardInterrupt], which is not. *)
Definition second_flush_interrupted (fn : str) : fate :=
  if str_eqb fn (py "split_Sent.mbox") then Fate FlushRaisesOther false
  else Fate FlushRaisesException false.

Definition first_close_raises (fn : str) : fate :=
  if str_eqb fn (py "split_Inbox.mbox") then Fate FlushRaisesException true
  else all_fine fn.

(** ** The options (lines 30-43) and the progress lines (lines 62-100) *)

(** [in_mbox] and [prefix]. *)
Record settings : Type := Settings {
  in_mbox : str;
  out_prefix : str
}.

(** Lines 30-31. *)
Definition default_settings : settings :=
  Settings (py "inbox.mbox") (py "split_").

Definition names_infile (opt : str) : bool :=
  str_eqb opt (py "-i") || str_eqb opt (py "--infile").

Definition names_prefix (opt : str) : bool :=
  str_eqb opt (py "-p") || str_eqb opt (py "--prefix").

(** The body of the loop of line 39, on one pair of [opts]. *)
Definition set_opt (s : settings) (oa : str * str) : settings :=
  let (opt, arg) := oa in
  if names_infile opt then Settings arg (out_prefix s)
  else if names_prefix opt then Settings (in_mbox s) arg
  else s.

(** Lines 30-43, [opts] being what [getopt.getopt] returned. *)
Definition read_opts (opts : list (str * str)) : settings :=
  fold_left set_opt opts default_settings.

(** The argument of the last pair of [opts] whose option [p] accepts. *)
Definition last_arg (p : str -> bool) (opts : list (str * str)) : option str :=
  match find (fun oa => p (fst oa)) (rev opts) with
  | Some oa => Some (snd oa)
  | None => None
  end.

(** [labels] is true at line 68. *)
Definition labelled (m : message) : bool :=
  match labels m with
  | Some (_ :: _) => true
  | _ => false
  end.

(** The step of the progress lines (line 99). *)
Definition every : nat := 2000.

(** One box at the end of the run: neither does its [close] raise nor
    does its [flush] raise past line 107. *)
Definition quiet_box (io : str -> fate) (fn : str) : Prop :=
  close_raises (io fn) = false /\ flush_ends (io fn) <> FlushRaisesOther.

(** The counter [n] and the progress lines of line 100, each given by the
    number it shows, oldest first, for a loop that starts with the counter
    at [n] and is not left by an exception: the [continue] of line 71
    passes the test of line 99 by. *)
Fixpoint progress (n : nat) (msgs : list message) : nat * list nat :=
  match msgs with
  | [] => (n, [])
  | m :: rest =>
      if labelled m then
        let (n', out) := progress (S n) rest in
        (n', if (S n mod every =? 0)%nat then S n :: out else out)
      else progress (S n) rest
  end.

(** The files of a list of messages, each once, in the order in which
    they come first; [seen] holds the files met before. *)
Fixpoint first_uses (seen : list str) (fns : list str) : list str :=
  match fns with
  | [] => []
  | fn :: rest =>
      if existsb (str_eqb fn) seen then first_uses seen rest
      else fn :: first_uses (seen ++ [fn]) rest
  end.

(** The number of byte strings in the boxes of [st]. *)
Definition stored (st : state) : nat :=
  list_sum (map (fun fn => List.length (contents fn st)) (opened st)).

(** The destinations with a file name fixed before the loop, but the
    fallback. *)
Definition system_buckets : list bucket := [Inbox; Sent; Spam; Trash].

(** ** The source on some inputs *)

Example sl1 : safe_label (py "") 120 = py "Archive". Proof. reflexivity. Qed.
Example sl2 : safe_label (py "CON") 120 = py "_CON". Proof. reflexivity. Qed.
Example sl3 : safe_label (py "a/b:c") 120 = py "a.b.c". Proof. reflexivity. Qed.
Example sl4 : safe_label (py "a...b") 120 = py "a..b". Proof. reflexivity. Qed.
Example sl5 : safe_label (py "CONx") 3 = py "CON". Proof. reflexivity. Qed.
Example sl6 : safe_label (py "  Lpt3 ") 120 = py "_Lpt3". Proof. reflexivity. Qed.
Example sl7 : safe_label (py "abc") (-1) = py "ab". Proof. reflexivity. Qed.
Example cl1 : classify (Some (py "Spam, Inbox")) = Spam.
Proof. reflexivity. Qed.
Example cl2 : classify (Some (py "Important, Unread")) = Archive.
Proof. reflexivity. Qed.
Example cl3 : classify (Some (py "Projects/Work")) = Custom (py "Projects.Work").
Proof. reflexivity. Qed.
Example cl4 : classify (Some (py "Unread, , Some Project,Other")) = Custom (py "Some Project").
Proof. reflexivity. Qed.
Example cl5 : classify (Some (py "Presentations")) = Sent.
Proof. reflexivity. Qed.

(** ** Facts on the string operations *)

Lemma list_ind2 (A : Type) (P : list A -> Prop) :
  P [] -> (forall a, P [a]) ->
  (forall a b l, P l -> P (b :: l) -> P (a :: b :: l)) ->
  forall l, P l.
Proof.
  intros H0 H1 H2.
  assert (H : forall l, P l /\ forall a, P (a :: l)).
  { induction l as [|b l [IH1 IH2]]; split; auto. }
  intro l. apply H.
Qed.

Section Strip.

Variable p : ascii -> bool.

Lemma lstrip_by_app s t :
  lstrip_by p (s ++ t) =
  match lstrip_by p s with
  | [] => lstrip_by p t
  | r => r ++ t
  end.
Proof.
  induction s as [|c s IH]; simpl.
  - reflexivity.
  - destruct (p c); auto.
Qed.

Lemma rstrip_by_cons c s :
  rstrip_by p (c :: s) =
  match rstrip_by p s with
  | [] => if p c then [] else [c]
  | r => c :: r
  end.
Proof.
  unfold rstrip_by. simpl rev. rewrite lstrip_by_app.
  destruct (lstrip_by p (rev s)) as [|a l] eqn:E.
  - simpl. destruct (p c); reflexivity.
  - rewrite rev_app_distr. simpl.
    destruct (rev l ++ [a]) eqn:E'; [|reflexivity].
    destruct (rev l); discriminate.
Qed.

Lemma lstrip_by_Forall (Q : ascii -> Prop) s :
  Forall Q s -> Forall Q (lstrip_by p s).
Proof.
  induction 1 as [|c s Hc Hs IH]; simpl; [constructor|].
  destruct (p c); auto.
Qed.

Lemma rstrip_by_Forall (Q : ascii -> Prop) s :
  Forall Q s -> Forall Q (rstrip_by p s).
Proof.
  intro H. unfold rstrip_by.
  apply Forall_rev, lstrip_by_Forall, Forall_rev, H.
Qed.

Lemma strip_by_Forall (Q : ascii -> Prop) s :
  Forall Q s -> Forall Q (strip_by p s).
Proof. intro H. apply rstrip_by_Forall, lstrip_by_Forall, H. Qed.

Lemma lstrip_by_length s : (List.length (lstrip_by p s) <= List.length s)%nat.
Proof.
  induction s as [|c s IH]; simpl; [lia|].
  destruct (p c); simpl; lia.
Qed.

Lemma rstrip_by_length s : (List.length (rstrip_by p s) <= List.length s)%nat.
Proof.
  unfold rstrip_by. rewrite length_rev.
  etransitivity; [apply lstrip_by_length|]. rewrite length_rev. lia.
Qed.

Lemma lstrip_by_head_ok s : head_ok p (lstrip_by p s) = true.
Proof.
  induction s as [|c s IH]; simpl; [reflexivity|].
  destruct (p c) eqn:E; [assumption|]. simpl. now rewrite E.
Qed.

Lemma lstrip_by_id s : head_ok p s = true -> lstrip_by p s = s.
Proof.
  destruct s as [|c s]; simpl; [reflexivity|].
  destruct (p c); [discriminate|reflexivity].
Qed.

Lemma rstrip_by_last_ok s : last_ok p (rstrip_by p s) = true.
Proof.
  unfold last_ok, rstrip_by. rewrite rev_involutive. apply lstrip_by_head_ok.
Qed.

Lemma rstrip_by_id s : last_ok p s = true -> rstrip_by p s = s.
Proof.
  unfold last_ok, rstrip_by. intro H.
  rewrite lstrip_by_id by assumption. apply rev_involutive.
Qed.

Lemma rstrip_by_head_ok s : head_ok p s = true -> head_ok p (rstrip_by p s) = true.
Proof.
  destruct s as [|c s]; [reflexivity|]. simpl. intro H.
  rewrite rstrip_by_cons. destruct (rstrip_by p s).
  - destruct (p c) eqn:E; [discriminate|]. simpl. now rewrite E.
  - simpl. assumption.
Qed.

Lemma rstrip_by_keeps_head c s :
  p c = false -> exists r, rstrip_by p (c :: s) = c :: r.
Proof.
  intro H. rewrite rstrip_by_cons. destruct (rstrip_by p s) as [|a r].
  - rewrite H. now exists [].
  - now exists (a :: r).
Qed.

Lemma strip_by_head_ok s : head_ok p (strip_by p s) = true.
Proof. apply rstrip_by_head_ok, lstrip_by_head_ok. Qed.

Lemma strip_by_last_ok s : last_ok p (strip_by p s) = true.
Proof. apply rstrip_by_last_ok. Qed.

Lemma strip_by_id s :
  head_ok p s = true -> last_ok p s = true -> strip_by p s = s.
Proof.
  intros Hh Hl. unfold strip_by.
  rewrite lstrip_by_id by assumption. now apply rstrip_by_id.
Qed.

Lemma lstrip_by_all s : Forall (fun c => p c = true) s -> lstrip_by p s = [].
Proof.
  induction 1 as [|c s Hc Hs IH]; simpl; [reflexivity|]. now rewrite Hc.
Qed.


Lemma head_ok_firstn n s : head_ok p s = true -> head_ok p (firstn n s) = true.
Proof. destruct n, s; simpl; auto. Qed.

Lemma last_ok_cons c s : s <> [] -> last_ok p (c :: s) = last_ok p s.
Proof.
  unfold last_ok. simpl. intro H.
  destruct (rev s) eqn:E; [|reflexivity].
  apply (f_equal (@rev ascii)) in E. rewrite rev_involutive in E. now destruct H.
Qed.

End Strip.

Lemma replace_dotdot_cons2 a b l :
  replace_dotdot (a :: b :: l) =
  if Ascii.eqb a dot && Ascii.eqb b dot
  then dot :: replace_dotdot l
  else a :: replace_dotdot (b :: l).
Proof. reflexivity. Qed.

Lemma replace_dotdot_Forall (Q : ascii -> Prop) s :
  Forall Q s -> Forall Q (replace_dotdot s).
Proof.
  induction s as [| a | a b l IH1 IH2] using list_ind2; intro H.
  - constructor.
  - assumption.
  - rewrite replace_dotdot_cons2.
    inversion H as [|? ? Ha Hbl]; subst.
    inversion Hbl as [|? ? Hb Hl]; subst.
    destruct (Ascii.eqb a dot && Ascii.eqb b dot) eqn:E.
    + apply andb_prop in E as [Ea _]. apply Ascii.eqb_eq in Ea. subst a.
      constructor; auto.
    + constructor; auto.
Qed.

Lemma replace_dotdot_length s :
  (List.length (replace_dotdot s) <= List.length s)%nat.
Proof.
  induction s as [| a | a b l IH1 IH2] using list_ind2.
  - simpl. lia.
  - simpl. lia.
  - rewrite replace_dotdot_cons2.
    destruct (Ascii.eqb a dot && Ascii.eqb b dot); simpl in *; lia.
Qed.

Lemma contains_cons p c r :
  contains p (c :: r) = startswith p (c :: r) || contains p r.
Proof. reflexivity. Qed.

Lemma startswith_dotdot c d r :
  startswith (py "..") (c :: d :: r) = Ascii.eqb dot c && (Ascii.eqb dot d && true).
Proof. reflexivity. Qed.

(** Without two periods in a row, [replace("..", ".")] changes nothing. *)
Lemma replace_dotdot_id s :
  contains (py "..") s = false -> replace_dotdot s = s.
Proof.
  induction s as [|c r IH]; [reflexivity|].
  intro H. rewrite contains_cons in H. apply orb_false_elim in H as [H1 H2].
  destruct r as [|d r']; [reflexivity|].
  rewrite replace_dotdot_cons2.
  rewrite startswith_dotdot, andb_true_r in H1.
  rewrite (Ascii.eqb_sym c), (Ascii.eqb_sym d), H1.
  f_equal. now apply IH.
Qed.

Lemma Forall_firstn (Q : ascii -> Prop) n (s : str) :
  Forall Q s -> Forall Q (firstn n s).
Proof.
  revert n. induction s as [|c s IH]; intros [|n] H; simpl; try constructor.
  - now inversion H.
  - apply IH. now inversion H.
Qed.

Lemma slice_to_Forall (Q : ascii -> Prop) s n :
  Forall Q s -> Forall Q (slice_to s n).
Proof. intro H. unfold slice_to. destruct (0 <=? n)%Z; now apply Forall_firstn. Qed.

Lemma slice_to_length s n :
  (0 <= n)%Z -> (Z.of_nat (List.length (slice_to s n)) <= n)%Z.
Proof.
  intro H. unfold slice_to.
  destruct (0 <=? n)%Z eqn:E; [|lia].
  rewrite length_firstn. lia.
Qed.

(** ** Facts on the sanitizer *)

Lemma sub_illegal_legal s : legal (sub_illegal s).
Proof.
  induction s as [|c s IH]; simpl; constructor; auto.
  destruct (_ILLEGAL c) eqn:E; [reflexivity|assumption].
Qed.

Lemma sub_illegal_id s : legal s -> sub_illegal s = s.
Proof.
  induction 1 as [|c s Hc Hs IH]; simpl; [reflexivity|].
  rewrite Hc. now f_equal.
Qed.

Lemma RESERVED_hd x : In x _RESERVED -> hd 0%N x <> 95%N.
Proof.
  revert x. apply Forall_forall.
  unfold _RESERVED. simpl. repeat constructor; discriminate.
Qed.

Lemma reserved_In s : reserved s = true <-> In (upper s) _RESERVED.
Proof.
  unfold reserved. rewrite existsb_exists. split.
  - intros [x [Hin Hx]]. unfold codes_eqb in Hx.
    destruct (list_eq_dec N.eq_dec (upper s) x); [now subst|discriminate].
  - intro H. exists (upper s). split; [assumption|].
    unfold codes_eqb. now destruct (list_eq_dec N.eq_dec (upper s) (upper s)).
Qed.

(** A name that starts with an underscore is not reserved. *)
Lemma reserved_underscore s : reserved ("_"%char :: s) = false.
Proof.
  destruct (reserved ("_"%char :: s)) eqn:E; [|reflexivity].
  apply reserved_In, RESERVED_hd in E. now destruct E.
Qed.

Lemma cleaned_legal label : legal (cleaned label).
Proof.
  unfold cleaned.
  destruct (is_empty _) eqn:E.
  - unfold legal. simpl. repeat constructor.
  - apply strip_by_Forall, replace_dotdot_Forall, sub_illegal_legal.
Qed.

Lemma cleaned_nonempty label : cleaned label <> [].
Proof.
  unfold cleaned. destruct (strip_chars _ _) eqn:E; simpl; discriminate.
Qed.

Lemma cleaned_head_ok label : head_ok sd (cleaned label) = true.
Proof.
  unfold cleaned. destruct (is_empty _) eqn:E; [reflexivity|].
  apply strip_by_head_ok.
Qed.

Lemma cleaned_last_ok label : last_ok sd (cleaned label) = true.
Proof.
  unfold cleaned. destruct (is_empty _) eqn:E; [reflexivity|].
  apply strip_by_last_ok.
Qed.

Lemma named_legal label : legal (named label).
Proof.
  unfold named. destruct (reserved _).
  - constructor; [reflexivity|apply cleaned_legal].
  - apply cleaned_legal.
Qed.

Lemma named_nonempty label : named label <> [].
Proof.
  unfold named. destruct (reserved _); [discriminate|apply cleaned_nonempty].
Qed.

Lemma named_head_ok label : head_ok sd (named label) = true.
Proof.
  unfold named. destruct (reserved _); [reflexivity|apply cleaned_head_ok].
Qed.

Lemma named_last_ok label : last_ok sd (named label) = true.
Proof.
  unfold named. destruct (reserved _); [|apply cleaned_last_ok].
  rewrite last_ok_cons by apply cleaned_nonempty. apply cleaned_last_ok.
Qed.

Lemma named_not_reserved label : reserved (named label) = false.
Proof.
  unfold named. destruct (reserved (cleaned label)) eqn:E;
    [apply reserved_underscore|assumption].
Qed.

Lemma safe_label_untruncated label maxlen :
  (Z.of_nat (List.length (named label)) <= maxlen)%Z ->
  safe_label label maxlen = named label.
Proof.
  intro H. unfold safe_label.
  destruct (Z.gtb_spec (Z.of_nat (List.length (named label))) maxlen); [lia|reflexivity].
Qed.

Lemma safe_label_legal label maxlen : legal (safe_label label maxlen).
Proof.
  unfold safe_label. destruct (_ >? _)%Z.
  - apply rstrip_by_Forall, slice_to_Forall, named_legal.
  - apply named_legal.
Qed.

Lemma safe_label_head_ok label maxlen :
  head_ok sd (safe_label label maxlen) = true.
Proof.
  unfold safe_label. destruct (_ >? _)%Z; [|apply named_head_ok].
  apply rstrip_by_head_ok. unfold slice_to.
  destruct (0 <=? maxlen)%Z; apply head_ok_firstn, named_head_ok.
Qed.

Lemma safe_label_last_ok label maxlen :
  last_ok sd (safe_label label maxlen) = true.
Proof.
  unfold safe_label. destruct (_ >? _)%Z; [|apply named_last_ok].
  apply rstrip_by_last_ok.
Qed.

Lemma safe_label_nonempty label maxlen :
  (1 <= maxlen)%Z -> safe_label label maxlen <> [].
Proof.
  intro H. unfold safe_label.
  destruct (_ >? _)%Z; [|apply named_nonempty].
  pose proof (named_nonempty label) as Hn.
  pose proof (named_head_ok label) as Hh.
  destruct (named label) as [|c r]; [now destruct Hn|].
  unfold slice_to. destruct (Z.leb_spec 0 maxlen); [|lia].
  destruct (Z.to_nat maxlen) as [|k] eqn:E; [lia|].
  simpl firstn. simpl in Hh. apply negb_true_iff in Hh.
  destruct (@rstrip_by_keeps_head sd c (firstn k r) Hh) as [t Ht].
  unfold rstrip_chars. fold sd. rewrite Ht. discriminate.
Qed.

Lemma safe_label_length label maxlen :
  (0 <= maxlen)%Z ->
  (Z.of_nat (List.length (safe_label label maxlen)) <= maxlen)%Z.
Proof.
  intro H. unfold safe_label.
  destruct (Z.gtb_spec (Z.of_nat (List.length (named label))) maxlen); [|assumption].
  pose proof (rstrip_by_length sd (slice_to (named label) maxlen)).
  pose proof (slice_to_length (named label) H).
  unfold rstrip_chars. fold sd. lia.
Qed.

Lemma rstrip_by_prefix p s : exists t, s = rstrip_by p s ++ t.
Proof.
  induction s as [|c s [t IH]]; [now exists []|].
  rewrite rstrip_by_cons. destruct (rstrip_by p s) as [|a r].
  - destruct (p c); [now exists (c :: s)|].
    exists s. reflexivity.
  - exists t. simpl. now rewrite IH at 1.
Qed.

Lemma slice_to_prefix s n : exists t, s = slice_to s n ++ t.
Proof.
  unfold slice_to. destruct (0 <=? n)%Z; eexists; symmetry; apply firstn_skipn.
Qed.

(** Without the underscore of line 24, the result is the start of the
    cleaned label. *)
Lemma safe_label_prefix label maxlen :
  reserved (cleaned label) = false ->
  exists t, cleaned label = safe_label label maxlen ++ t.
Proof.
  intro H. unfold safe_label, named. rewrite H.
  destruct (_ >? _)%Z; [|exists []; now rewrite app_nil_r].
  destruct (slice_to_prefix (cleaned label) maxlen) as [t1 H1].
  destruct (rstrip_by_prefix sd (slice_to (cleaned label) maxlen)) as [t2 H2].
  exists (t2 ++ t1). unfold rstrip_chars. fold sd.
  rewrite app_assoc, <- H2. exact H1.
Qed.

(** With the underscore of line 24, the result starts with it. *)
Lemma safe_label_underscore label maxlen :
  (1 <= maxlen)%Z -> reserved (cleaned label) = true ->
  exists r, safe_label label maxlen = "_"%char :: r.
Proof.
  intros Hm H. unfold safe_label, named. rewrite H.
  destruct (_ >? _)%Z; [|now eexists].
  unfold slice_to. destruct (Z.leb_spec 0 maxlen); [|lia].
  destruct (Z.to_nat maxlen) as [|k] eqn:E; [lia|].
  simpl firstn. unfold rstrip_chars. fold sd.
  now apply rstrip_by_keeps_head.
Qed.

(** ** The sanitizer: what it guarantees *)

(** C4, as the code has it: for every label and every bound [maxlen] of at
    least 1, [safe_label] returns a name that is not empty, holds no
    character of [_ILLEGAL], and is at most [maxlen] long; when the name was
    not cut at line 26 (it is at most [maxlen] long at line 25) its upper
    case is not in [_RESERVED]; and 200 times the letter a gives a name of
    exactly 120 characters under the default bound. *)
Theorem safe_label_guarantees label maxlen :
  (1 <= maxlen)%Z ->
  safe_label label maxlen <> [] /\
  (forall c, In c (safe_label label maxlen) -> _ILLEGAL c = false) /\
  (Z.of_nat (List.length (safe_label label maxlen)) <= maxlen)%Z /\
  ((Z.of_nat (List.length (named label)) <= maxlen)%Z ->
   reserved (safe_label label maxlen) = false) /\
  List.length (sanitize (repeat "a"%char 200)) = 120%nat.
Proof.
  intro H. split; [|split; [|split; [|split]]].
  - now apply safe_label_nonempty.
  - apply Forall_forall, safe_label_legal.
  - apply safe_label_length. lia.
  - intro Hn. rewrite safe_label_untruncated by assumption.
    apply named_not_reserved.
  - vm_compute. reflexivity.
Qed.

Lemma safe_label_guarantees_witness :
  safe_label (py "Projects/Work") 120 <> [] /\
  reserved (safe_label (py "Projects/Work") 120) = false.
Proof.
  destruct (@safe_label_guarantees (py "Projects/Work") 120) as (H1 & _ & _ & H4 & _).
  - lia.
  - split; [exact H1|]. apply H4. vm_compute. discriminate.
Defined.

(** C4 as the specification words it fails in three ways: a bound of 0
    gives the empty name, a negative bound gives a name longer than the
    bound, and under the default bound a name that is cut at line 26 can
    be a reserved one, the test of line 23 having been made before. *)
Lemma safe_label_guarantees_fail :
  safe_label (py "a") 0 = [] /\
  (Z.of_nat (List.length (safe_label (py "abc") (-1))) > -1)%Z /\
  sanitize (py "CON" ++ repeat " "%char 117 ++ py "x") = py "CON" /\
  reserved (sanitize (py "CON" ++ repeat " "%char 117 ++ py "x")) = true.
Proof. vm_compute. repeat split; reflexivity. Qed.

(** C5, as the code has it: [safe_label] applied to one of its results
    [y] gives [y] back whenever [y] holds no two periods in a row, has no
    white space at its ends and is not a reserved name; the bound is any
    integer that is not negative. *)
Theorem safe_label_idempotent_when_settled x maxlen :
  (0 <= maxlen)%Z ->
  contains (py "..") (safe_label x maxlen) = false ->
  reserved (safe_label x maxlen) = false ->
  strip (safe_label x maxlen) = safe_label x maxlen ->
  safe_label (safe_label x maxlen) maxlen = safe_label x maxlen.
Proof.
  intros Hm Hdd Hres Hsp.
  pose proof (safe_label_legal x maxlen) as Hleg.
  pose proof (safe_label_head_ok x maxlen) as Hh.
  pose proof (safe_label_last_ok x maxlen) as Hl.
  pose proof (safe_label_length x Hm) as Hlen.
  destruct (safe_label x maxlen) as [|c y] eqn:E.
  - assert (maxlen = 0)%Z as ->.
    { destruct (Z.le_gt_cases 1 maxlen) as [H1|H1]; [|lia].
      now destruct (safe_label_nonempty x H1). }
    reflexivity.
  - assert (Hc : cleaned (c :: y) = c :: y).
    { unfold cleaned. rewrite Hsp, (sub_illegal_id Hleg).
      rewrite (replace_dotdot_id _ Hdd).
      unfold strip_chars. fold sd. rewrite (strip_by_id _ _ Hh Hl).
      reflexivity. }
    assert (Hn : named (c :: y) = c :: y).
    { unfold named. rewrite Hc, Hres. reflexivity. }
    rewrite safe_label_untruncated; rewrite Hn; [reflexivity|assumption].
Qed.

Lemma safe_label_idempotent_witness :
  sanitize (sanitize (py "a/b:c")) = sanitize (py "a/b:c").
Proof.
  apply (@safe_label_idempotent_when_settled (py "a/b:c") 120).
  - lia.
  - vm_compute. reflexivity.
  - vm_compute. reflexivity.
  - vm_compute. reflexivity.
Defined.

(** C5 as the specification words it fails: one pass of
    [replace("..", ".")] leaves two periods of three, which the second call
    collapses; a name cut at line 26 into a reserved one gets its
    underscore at the second call; and a no-break space (code 160) that
    [strip(" .")] uncovers is stripped by the second call. *)
Lemma sanitize_not_idempotent :
  sanitize (py "a...b") = py "a..b" /\
  sanitize (sanitize (py "a...b")) = py "a.b" /\
  sanitize (py "CON" ++ repeat " "%char 117 ++ py "x") = py "CON" /\
  sanitize (sanitize (py "CON" ++ repeat " "%char 117 ++ py "x")) = py "_CON" /\
  sanitize ("."%char :: ascii_of_N 160 :: py "a") = ascii_of_N 160 :: py "a" /\
  sanitize (sanitize ("."%char :: ascii_of_N 160 :: py "a")) = py "a".
Proof. vm_compute. repeat split; reflexivity. Qed.

(** C6: the empty label gives [Archive], [CON] gives [_CON], and the name
    made from [a/b:c] holds neither slash nor colon.  The test of line 23
    comes before the cut of line 26: a label whose cleaned form is
    reserved keeps its underscore under any bound of at least 1 ([CON]
    under the bound 3 gives [_CO]), and a label whose cleaned form is not
    reserved gets none: the result is the start of the cleaned form, even
    where the cut makes a reserved name of it ([CONx] under the bound 3
    gives [CON]). *)
Theorem sanitize_examples_and_order :
  sanitize (py "") = py "Archive" /\
  sanitize (py "CON") = py "_CON" /\
  (~ In "/"%char (sanitize (py "a/b:c")) /\
   ~ In ":"%char (sanitize (py "a/b:c"))) /\
  (forall label maxlen,
     (1 <= maxlen)%Z -> reserved (cleaned label) = true ->
     exists r, safe_label label maxlen = "_"%char :: r) /\
  (forall label maxlen,
     reserved (cleaned label) = false ->
     exists t, cleaned label = safe_label label maxlen ++ t) /\
  safe_label (py "CON") 3 = py "_CO" /\
  safe_label (py "CONx") 3 = py "CON".
Proof.
  split; [reflexivity|]. split; [reflexivity|].
  split.
  { split; vm_compute; intuition discriminate. }
  split; [exact safe_label_underscore|].
  split; [exact safe_label_prefix|].
  split; reflexivity.
Qed.

Lemma sanitize_order_witness :
  exists r, safe_label (py "Com7") 2 = "_"%char :: r.
Proof.
  destruct sanitize_examples_and_order as (_ & _ & _ & H & _).
  apply H; [lia|reflexivity].
Defined.

(** ** Facts on the classification *)

Lemma startswith_spec p s : startswith p s = true <-> exists b, s = p ++ b.
Proof.
  revert s. induction p as [|a p IH]; intro s; simpl.
  - split; [intros _; now exists s|reflexivity].
  - destruct s as [|c s].
    + split; [discriminate|intros [b H]; discriminate].
    + rewrite andb_true_iff, IH, Ascii.eqb_eq. split.
      * intros [-> [b ->]]. now exists b.
      * intros [b H]. injection H as -> ->. split; [reflexivity|now exists b].
Qed.

(** [p in s] decides that [p] occurs in [s]. *)
Lemma contains_spec p s : contains p s = true <-> occurs_in p s.
Proof.
  unfold occurs_in. induction s as [|c s IH].
  - simpl. rewrite orb_false_r, startswith_spec. split.
    + intros [b H]. now exists [], b.
    + intros [a [b H]]. destruct a; [now exists b|discriminate].
  - rewrite contains_cons, orb_true_iff, startswith_spec, IH. split.
    + intros [[b H]|[a [b H]]].
      * now exists [], b.
      * exists (c :: a), b. simpl. now rewrite H.
    + intros [[|c' a] [b H]].
      * left. now exists b.
      * right. injection H as _ H. now exists a, b.
Qed.

Lemma contains_false p s : ~ occurs_in p s -> contains p s = false.
Proof.
  intro H. destruct (contains p s) eqn:E; [|reflexivity].
  now apply contains_spec in E.
Qed.

Lemma split_cons sep c r :
  split sep (c :: r) =
  if Ascii.eqb c sep then [] :: split sep r
  else match split sep r with
       | h :: t => (c :: h) :: t
       | [] => [[c]]
       end.
Proof. reflexivity. Qed.

Lemma split_nonempty sep s : split sep s <> [].
Proof.
  destruct s as [|c r]; [discriminate|]. rewrite split_cons.
  destruct (Ascii.eqb c sep); [discriminate|].
  destruct (split sep r); discriminate.
Qed.

(** The parts of [s.split(sep)], joined by [sep], give [s] back, and none
    of them holds [sep]. *)
Lemma join_split sep s : join sep (split sep s) = s.
Proof.
  induction s as [|c r IH]; [reflexivity|]. rewrite split_cons.
  pose proof (split_nonempty sep r) as Hne.
  destruct (Ascii.eqb_spec c sep) as [->|Hc].
  - destruct (split sep r) as [|h t] eqn:E; [now destruct Hne|].
    simpl. simpl in IH. now rewrite IH.
  - destruct (split sep r) as [|h t] eqn:E; [now destruct Hne|].
    simpl. simpl in IH. destruct t; simpl in *; now rewrite <- IH.
Qed.

Lemma split_no_sep sep s : Forall (fun p => ~ In sep p) (split sep s).
Proof.
  induction s as [|c r IH]; [repeat constructor; auto|]. rewrite split_cons.
  destruct (Ascii.eqb_spec c sep) as [->|Hc].
  - constructor; auto.
  - destruct (split sep r) as [|h t]; [repeat constructor; simpl; intuition|].
    inversion IH as [|? ? Hh Ht]; subst. constructor; [|assumption].
    simpl. intuition.
Qed.

Lemma lower_nil s : lower s = [] <-> s = [].
Proof. destruct s; simpl; split; (reflexivity || discriminate). Qed.

Lemma str_eqb_eq a b : str_eqb a b = true <-> a = b.
Proof.
  unfold str_eqb. destruct (list_eq_dec ascii_dec a b) as [H|H]; split;
    intro H'; auto; (discriminate || now destruct H).
Qed.

(** A label is skipped when it is empty or when its lower case is in
    [ignored]. *)
Lemma skipped_spec part :
  skipped part = true <-> part = [] \/ In (lower part) ignored.
Proof.
  unfold skipped. rewrite orb_true_iff, existsb_exists. split.
  - intros [[x [Hin Hx]]|H].
    + right. apply str_eqb_eq in Hx. now subst.
    + left. apply lower_nil. now destruct (lower part).
  - intros [->|H]; [now right|].
    left. exists (lower part). split; [assumption|now apply str_eqb_eq].
Qed.

Lemma first_kept_app pre part post :
  Forall (fun p => skipped p = true) pre -> skipped part = false ->
  first_kept (pre ++ part :: post) = Some part.
Proof.
  induction 1 as [|p pre Hp Hpre IH]; intro H; simpl.
  - now rewrite H.
  - rewrite Hp. now apply IH.
Qed.

Lemma first_kept_none parts :
  Forall (fun p => skipped p = true) parts -> first_kept parts = None.
Proof.
  induction 1 as [|p parts Hp Hparts IH]; simpl; [reflexivity|]. now rewrite Hp.
Qed.

Lemma first_kept_some parts part :
  first_kept parts = Some part ->
  exists pre post, parts = pre ++ part :: post /\
    Forall (fun p => skipped p = true) pre /\ skipped part = false.
Proof.
  induction parts as [|p parts IH]; simpl; [discriminate|].
  destruct (skipped p) eqn:E.
  - intro H. destruct (IH H) as (pre & post & -> & Hpre & Hp).
    exists (p :: pre), post. repeat split; auto.
  - intro H. injection H as ->. exists [], parts. repeat split; auto.
Qed.

(** The [else] branch of line 84. *)
Lemma classify_else labels :
  labels <> [] -> system_free labels ->
  classify (Some labels) =
  match first_kept (parts_of labels) with
  | Some label => Custom (sanitize label)
  | None => Archive
  end.
Proof.
  intros Hne Hfree. unfold classify.
  destruct labels as [|c r]; [now destruct Hne|]. unfold is_empty.
  rewrite !contains_false; [reflexivity| | | |];
    apply Hfree; unfold system_words; simpl; auto.
Qed.

(** ** The classification: the claims *)

(** C1: for a label string that is present and not empty, the lower case
    of the whole string decides, in the order spam, trash, inbox, sent,
    the first word that occurs winning: [Spam] if [spam] occurs, whatever
    else does; else [Trash] if [trash] occurs; else [Inbox] if [inbox]
    occurs; else [Sent] if [sent] occurs. *)
Theorem classify_system_precedence labels :
  labels <> [] ->
  (occurs_in (py "spam") (lower labels) -> classify (Some labels) = Spam) /\
  (~ occurs_in (py "spam") (lower labels) ->
   occurs_in (py "trash") (lower labels) -> classify (Some labels) = Trash) /\
  (~ occurs_in (py "spam") (lower labels) ->
   ~ occurs_in (py "trash") (lower labels) ->
   occurs_in (py "inbox") (lower labels) -> classify (Some labels) = Inbox) /\
  (~ occurs_in (py "spam") (lower labels) ->
   ~ occurs_in (py "trash") (lower labels) ->
   ~ occurs_in (py "inbox") (lower labels) ->
   occurs_in (py "sent") (lower labels) -> classify (Some labels) = Sent).
Proof.
  intro Hne. unfold classify.
  destruct labels as [|c r]; [now destruct Hne|]. unfold is_empty.
  repeat split; intros;
    repeat match goal with
    | H : occurs_in _ _ |- _ => apply contains_spec in H; rewrite H
    | H : ~ occurs_in _ _ |- _ => apply contains_false in H; rewrite H
    end; reflexivity.
Qed.

Lemma classify_system_precedence_witness :
  classify (Some (py "Spam, Inbox")) = Spam /\
  classify (Some (py "Inbox,Sent")) = Inbox.
Proof.
  split.
  - apply (@classify_system_precedence (py "Spam, Inbox")); [discriminate|].
    apply contains_spec. reflexivity.
  - apply (@classify_system_precedence (py "Inbox,Sent")); [discriminate| | |];
      try (intro H; apply contains_spec in H; discriminate H).
    apply contains_spec. reflexivity.
Defined.

(** C2: a message without the label header, and one whose label header is
    the empty string, go to [Archive]. *)
Theorem classify_absent_or_empty :
  classify None = Archive /\ classify (Some (py "")) = Archive.
Proof. split; reflexivity. Qed.

Lemma lstrip_by_cut p s :
  exists ws, s = ws ++ lstrip_by p s /\ Forall (fun c => p c = true) ws.
Proof.
  induction s as [|c s (ws & IH & Hws)]; [now exists []|]. simpl.
  destruct (p c) eqn:E; [|now exists []].
  exists (c :: ws). split; [simpl; now rewrite <- IH|now constructor].
Qed.

Lemma rstrip_by_cut p s :
  exists ws, s = rstrip_by p s ++ ws /\ Forall (fun c => p c = true) ws.
Proof.
  unfold rstrip_by. destruct (lstrip_by_cut p (rev s)) as (ws & H & Hws).
  exists (rev ws). split; [|now apply Forall_rev].
  rewrite <- rev_app_distr, <- H. now rewrite rev_involutive.
Qed.

(** [s.strip()] is [s] without the white space at its two ends. *)
Lemma strip_trimmed s : trimmed s (strip s).
Proof.
  unfold strip, strip_by.
  destruct (lstrip_by_cut isspace s) as (ws1 & H1 & Hws1).
  destruct (rstrip_by_cut isspace (lstrip_by isspace s)) as (ws2 & H2 & Hws2).
  exists ws1, ws2. split; [now rewrite <- H2|].
  split; [assumption|]. split; [assumption|].
  split; [apply (strip_by_head_ok isspace s)|apply (strip_by_last_ok isspace s)].
Qed.

Lemma parts_trimmed pieces : Forall2 trimmed pieces (map strip pieces).
Proof.
  induction pieces as [|p pieces IH]; constructor;
    [apply strip_trimmed|assumption].
Qed.

(** C3: for a label string that is not empty and in whose lower case none
    of the four words occurs, the string is cut at its commas into pieces
    (the pieces hold no comma, and joined by commas they give the string
    back); the parts are the pieces, in order, each without the white
    space at its two ends; they are gone through in order, a part being
    skipped when it is empty or when its lower case is one of [important],
    [unread], [starred] and [newsletters]; the first part that is not
    skipped, [part], gives the one destination
    [Custom (sanitize part)]; when every part is skipped the destination
    is [Archive], as for [Important, Unread]. *)
Theorem classify_custom labels :
  labels <> [] -> system_free labels ->
  exists pieces,
    join comma pieces = labels /\
    Forall (fun p => ~ In comma p) pieces /\
    Forall2 trimmed pieces (parts_of labels) /\
    (forall part,
       skipped part = true <->
       part = [] \/
       In (lower part)
          (map py ["important"; "unread"; "starred"; "newsletters"]%string)) /\
    (forall pre part post,
       parts_of labels = pre ++ part :: post ->
       Forall (fun p => skipped p = true) pre -> skipped part = false ->
       classify (Some labels) = Custom (sanitize part)) /\
    (Forall (fun p => skipped p = true) (parts_of labels) ->
     classify (Some labels) = Archive) /\
    classify (Some (py "Important, Unread")) = Archive.
Proof.
  intros Hne Hfree. exists (split comma labels).
  split; [apply join_split|]. split; [apply split_no_sep|].
  split; [apply parts_trimmed|].
  split; [exact skipped_spec|]. split; [|split; [|reflexivity]].
  - intros pre part post Hparts Hpre Hpart.
    rewrite (classify_else Hne Hfree), Hparts.
    now rewrite (@first_kept_app pre part post Hpre Hpart).
  - intro Hall. rewrite (classify_else Hne Hfree).
    now rewrite (@first_kept_none _ Hall).
Qed.

Lemma system_free_dec labels :
  contains (py "spam") (lower labels) = false ->
  contains (py "trash") (lower labels) = false ->
  contains (py "inbox") (lower labels) = false ->
  contains (py "sent") (lower labels) = false ->
  system_free labels.
Proof.
  intros H1 H2 H3 H4 w Hw Hocc. apply contains_spec in Hocc.
  unfold system_words in Hw. simpl in Hw.
  destruct Hw as [<-|[<-|[<-|[<-|[]]]]];
    [ exact (eq_true_false_abs _ Hocc H1) | exact (eq_true_false_abs _ Hocc H2)
    | exact (eq_true_false_abs _ Hocc H3) | exact (eq_true_false_abs _ Hocc H4) ].
Qed.

Lemma classify_custom_witness :
  classify (Some (py "Important ,  , Some Project ,Other")) =
  Custom (sanitize (py "Some Project")).
Proof.
  destruct (@classify_custom (py "Important ,  , Some Project ,Other"))
    as (pieces & _ & _ & _ & _ & H & _).
  - discriminate.
  - apply system_free_dec; reflexivity.
  - apply (H [py "Important"; py ""] (py "Some Project") [py "Other"]).
    + reflexivity.
    + repeat constructor.
    + reflexivity.
Defined.










(** ** Facts on the run state *)

Lemma str_eqb_refl a : str_eqb a a = true.
Proof. now apply str_eqb_eq. Qed.

Lemma str_eqb_neq a b : a <> b -> str_eqb a b = false.
Proof.
  intro H. destruct (str_eqb a b) eqn:E; [|reflexivity].
  apply str_eqb_eq in E. now destruct H.
Qed.

Section DictFacts.

Variable V : Type.
Implicit Types (d : Dict.t V) (k : str) (v : V).

Lemma get_set_same k v d : Dict.get k (Dict.set k v d) = Some v.
Proof.
  induction d as [|[k' v'] d IH]; simpl.
  - now rewrite str_eqb_refl.
  - destruct (str_eqb k k') eqn:E; simpl; rewrite E; auto.
Qed.

Lemma get_set_other k k' v d :
  k <> k' -> Dict.get k' (Dict.set k v d) = Dict.get k' d.
Proof.
  intro H. induction d as [|[k0 v0] d IH]; simpl.
  - rewrite str_eqb_neq; auto.
  - destruct (str_eqb k k0) eqn:E; simpl.
    + apply str_eqb_eq in E. subst k0. rewrite str_eqb_neq; auto.
    + destruct (str_eqb k' k0); auto.
Qed.

Lemma get_None k d : Dict.get k d = None <-> ~ In k (Dict.keys d).
Proof.
  induction d as [|[k0 v0] d IH]; simpl.
  - intuition.
  - destruct (str_eqb k k0) eqn:E.
    + apply str_eqb_eq in E. subst. split; [discriminate|intuition].
    + rewrite IH. split; [|intuition].
      intros H [H'|H']; [|auto]. subst. now rewrite str_eqb_refl in E.
Qed.

Lemma keys_set_old k v d :
  Dict.mem k d = true -> Dict.keys (Dict.set k v d) = Dict.keys d.
Proof.
  unfold Dict.mem. induction d as [|[k0 v0] d IH]; simpl; [discriminate|].
  destruct (str_eqb k k0) eqn:E; simpl; [reflexivity|].
  intro H. f_equal. auto.
Qed.

Lemma keys_set_new k v d :
  Dict.mem k d = false -> Dict.keys (Dict.set k v d) = Dict.keys d ++ [k].
Proof.
  unfold Dict.mem. induction d as [|[k0 v0] d IH]; simpl; [reflexivity|].
  destruct (str_eqb k k0) eqn:E; simpl; [discriminate|].
  intro H. f_equal. auto.
Qed.

End DictFacts.

Lemma mem_get_true (V : Type) k (d : Dict.t V) :
  Dict.mem k d = true -> exists v, Dict.get k d = Some v.
Proof. unfold Dict.mem. destruct (Dict.get k d); [eauto|discriminate]. Qed.

Lemma mem_get_false (V : Type) k (d : Dict.t V) :
  Dict.mem k d = false -> Dict.get k d = None.
Proof. unfold Dict.mem. destruct (Dict.get k d); [discriminate|reflexivity]. Qed.

(** [box_for] on a file that is in [boxes] opens nothing and changes
    nothing. *)
Lemma box_for_old fn st : Dict.mem fn (boxes st) = true -> box_for fn st = st.
Proof. intro H. unfold box_for. now rewrite H. Qed.

(** [box_for] on a file that is not in [boxes] opens it, once. *)
Lemma box_for_new fn st :
  Dict.mem fn (boxes st) = false ->
  box_for fn st =
  State (Dict.set fn (Mbox (List.length (opened st)) [] []) (boxes st))
        (opened st ++ [fn]).
Proof. intro H. unfold box_for. now rewrite H. Qed.

Lemma box_for_mem fn st : Dict.mem fn (boxes (box_for fn st)) = true.
Proof.
  destruct (Dict.mem fn (boxes st)) eqn:E.
  - now rewrite box_for_old.
  - rewrite box_for_new by assumption. simpl.
    unfold Dict.mem. now rewrite get_set_same.
Qed.

Lemma box_for_contents fn fn' st :
  contents fn' (box_for fn st) = contents fn' st.
Proof.
  destruct (Dict.mem fn (boxes st)) eqn:E.
  - now rewrite box_for_old.
  - rewrite box_for_new by assumption. unfold contents. simpl.
    destruct (list_eq_dec ascii_dec fn fn') as [<-|Hne].
    + rewrite get_set_same, (mem_get_false _ _ E). reflexivity.
    + now rewrite get_set_other.
Qed.

Lemma add_contents_same fn r st :
  Dict.mem fn (boxes st) = true ->
  contents fn (add fn r st) = contents fn st ++ [r].
Proof.
  intro H. destruct (mem_get_true _ _ H) as [b Hb].
  unfold contents, add. rewrite Hb. simpl. now rewrite get_set_same.
Qed.

Lemma add_contents_other fn fn' r st :
  fn <> fn' -> contents fn' (add fn r st) = contents fn' st.
Proof.
  intro H. unfold contents, add.
  destruct (Dict.get fn (boxes st)); [|reflexivity].
  simpl. now rewrite get_set_other.
Qed.

Lemma add_opened fn r st : opened (add fn r st) = opened st.
Proof. unfold add. now destruct (Dict.get fn (boxes st)). Qed.

Lemma add_keys fn r st :
  Dict.keys (boxes (add fn r st)) = Dict.keys (boxes st).
Proof.
  unfold add. destruct (Dict.get fn (boxes st)) eqn:E; [|reflexivity].
  simpl. apply keys_set_old. unfold Dict.mem. now rewrite E.
Qed.

Lemma add_kept fn r st : kept st (add fn r st).
Proof.
  intros fn' b Hb. unfold add.
  destruct (Dict.get fn (boxes st)) as [b0|] eqn:E; [|eauto]. simpl.
  destruct (list_eq_dec ascii_dec fn fn') as [<-|Hne].
  - rewrite get_set_same. rewrite E in Hb. injection Hb as <-. eauto.
  - rewrite get_set_other by assumption. eauto.
Qed.

Lemma add_get_ident fn fn' r st b :
  Dict.get fn' (boxes (add fn r st)) = Some b ->
  exists b0, Dict.get fn' (boxes st) = Some b0 /\ ident b0 = ident b.
Proof.
  unfold add. destruct (Dict.get fn (boxes st)) as [b0|] eqn:E; [|eauto].
  simpl. destruct (list_eq_dec ascii_dec fn fn') as [<-|Hne].
  - rewrite get_set_same. intro H. injection H as <-. eauto.
  - rewrite get_set_other by assumption. eauto.
Qed.

Lemma kept_refl st : kept st st.
Proof. intros fn b H. eauto. Qed.

Lemma kept_trans st1 st2 st3 : kept st1 st2 -> kept st2 st3 -> kept st1 st3.
Proof.
  intros H12 H23 fn b H.
  destruct (H12 _ _ H) as (b2 & H2 & E2).
  destruct (H23 _ _ H2) as (b3 & H3 & E3).
  exists b3. split; [assumption|congruence].
Qed.

Lemma box_for_kept fn st : kept st (box_for fn st).
Proof.
  destruct (Dict.mem fn (boxes st)) eqn:E.
  - rewrite box_for_old by assumption. apply kept_refl.
  - rewrite box_for_new by assumption. intros fn' b Hb. simpl.
    destruct (list_eq_dec ascii_dec fn fn') as [<-|Hne].
    + rewrite (mem_get_false _ _ E) in Hb. discriminate.
    + rewrite get_set_other by assumption. eauto.
Qed.

Lemma box_for_consistent fn st : consistent st -> consistent (box_for fn st).
Proof.
  intros (Hk & Hn & Hi).
  destruct (Dict.mem fn (boxes st)) eqn:E.
  - now rewrite box_for_old.
  - rewrite box_for_new by assumption. unfold consistent. simpl.
    pose proof (mem_get_false _ _ E) as Hnone.
    assert (Hnin : ~ In fn (opened st)).
    { rewrite <- Hk. now apply get_None. }
    split; [|split].
    + rewrite keys_set_new by assumption. now rewrite Hk.
    + apply NoDup_app; [assumption|repeat constructor; auto|].
      intros x Hx [<-|[]]. auto.
    + intros fn' b.
      destruct (list_eq_dec ascii_dec fn fn') as [<-|Hne].
      * rewrite get_set_same. intro H. injection H as <-. simpl.
        rewrite nth_error_app2 by lia. now rewrite Nat.sub_diag.
      * rewrite get_set_other by assumption. intro H.
        pose proof (Hi _ _ H) as Hnth.
        rewrite nth_error_app1; [assumption|].
        apply nth_error_Some. congruence.
Qed.

Lemma add_consistent fn r st : consistent st -> consistent (add fn r st).
Proof.
  intros (Hk & Hn & Hi). unfold consistent.
  rewrite add_keys, add_opened. split; [assumption|]. split; [assumption|].
  intros fn' b Hb. destruct (add_get_ident _ _ _ _ Hb) as (b0 & H0 & E0).
  rewrite <- E0. now apply Hi.
Qed.


Lemma spill_opened fn stub st : opened (spill fn stub st) = opened st.
Proof. unfold spill. now destruct (Dict.get fn (boxes st)). Qed.

Lemma spill_keys fn stub st :
  Dict.keys (boxes (spill fn stub st)) = Dict.keys (boxes st).
Proof.
  unfold spill. destruct (Dict.get fn (boxes st)) eqn:E; [|reflexivity].
  simpl. apply keys_set_old. unfold Dict.mem. now rewrite E.
Qed.

Lemma spill_kept fn stub st : kept st (spill fn stub st).
Proof.
  intros fn' b Hb. unfold spill.
  destruct (Dict.get fn (boxes st)) as [b0|] eqn:E; [|eauto]. simpl.
  destruct (list_eq_dec ascii_dec fn fn') as [<-|Hne].
  - rewrite get_set_same. rewrite E in Hb. injection Hb as <-. eauto.
  - rewrite get_set_other by assumption. eauto.
Qed.

Lemma spill_get_ident fn fn' stub st b :
  Dict.get fn' (boxes (spill fn stub st)) = Some b ->
  exists b0, Dict.get fn' (boxes st) = Some b0 /\ ident b0 = ident b.
Proof.
  unfold spill. destruct (Dict.get fn (boxes st)) as [b0|] eqn:E; [|eauto].
  simpl. destruct (list_eq_dec ascii_dec fn fn') as [<-|Hne].
  - rewrite get_set_same. intro H. injection H as <-. eauto.
  - rewrite get_set_other by assumption. eauto.
Qed.

Lemma spill_consistent fn stub st : consistent st -> consistent (spill fn stub st).
Proof.
  intros (Hk & Hn & Hi). unfold consistent.
  rewrite spill_keys, spill_opened. split; [assumption|]. split; [assumption|].
  intros fn' b Hb. destruct (spill_get_ident _ _ _ _ Hb) as (b0 & H0 & E0).
  rewrite <- E0. now apply Hi.
Qed.



Lemma add_leftover fn fn' r st : leftover fn' (add fn r st) = leftover fn' st.
Proof.
  unfold leftover, add.
  destruct (Dict.get fn (boxes st)) as [b|] eqn:E; [|reflexivity]. simpl.
  destruct (list_eq_dec ascii_dec fn fn') as [<-|Hne].
  - rewrite get_set_same, E. reflexivity.
  - now rewrite get_set_other.
Qed.

Lemma box_for_leftover fn fn' st :
  leftover fn' (box_for fn st) = leftover fn' st.
Proof.
  destruct (Dict.mem fn (boxes st)) eqn:E.
  - now rewrite box_for_old.
  - rewrite box_for_new by assumption. unfold leftover. simpl.
    destruct (list_eq_dec ascii_dec fn fn') as [<-|Hne].
    + rewrite get_set_same, (mem_get_false _ _ E). reflexivity.
    + now rewrite get_set_other.
Qed.

(** ** Facts on the loop *)

(** A message has a file exactly when line 67 gives [None] or a [str],
    and the file is the one of its labels. *)
Lemma target_plain prefix m :
  plain m = true -> target prefix m = Some (route prefix (labels m)).
Proof.
  unfold plain, target, get.
  destruct (labels m) as [s|]; [|reflexivity].
  destruct (isascii s); [reflexivity|discriminate].
Qed.

Lemma target_encoded prefix m : plain m = false -> target prefix m = None.
Proof.
  unfold plain, target. destruct (get m); (discriminate || reflexivity).
Qed.

Lemma target_some prefix m fn :
  target prefix m = Some fn ->
  plain m = true /\ fn = route prefix (labels m).
Proof.
  destruct (plain m) eqn:E.
  - rewrite target_plain by assumption. intro H. injection H as <-. now split.
  - rewrite target_encoded by assumption. discriminate.
Qed.

Lemma iteration_quiet prefix m st :
  plain m = true ->
  iteration prefix (quiet m) st =
  (add (route prefix (labels m)) (raw m) (box_for (route prefix (labels m)) st),
   Completed).
Proof.
  intro H. unfold iteration, quiet. simpl. rewrite target_plain by assumption.
  destruct (Dict.mem (route prefix (labels m)) (boxes st)); reflexivity.
Qed.

(** A [Header] object ends the loop before any file is touched. *)
Lemma iteration_encoded prefix it st :
  plain (msg it) = false -> iteration prefix it st = (st, Raised).
Proof.
  intro H. unfold iteration. rewrite target_encoded by assumption.
  destruct (failing it) as [[| |]|]; reflexivity.
Qed.

(** The three ways out of one iteration. *)
Lemma iteration_cases prefix it st :
  iteration prefix it st = (st, Raised) \/
  (exists stub,
     plain (msg it) = true /\ failing it = Some (AddFails stub) /\
     iteration prefix it st =
       (spill (route prefix (labels (msg it))) stub
              (box_for (route prefix (labels (msg it))) st), Raised)) \/
  (plain (msg it) = true /\
   iteration prefix it st =
     (add (route prefix (labels (msg it))) (raw (msg it))
          (box_for (route prefix (labels (msg it))) st), Completed)).
Proof.
  destruct (plain (msg it)) eqn:Ep;
    [|left; now apply iteration_encoded].
  unfold iteration. rewrite target_plain by assumption.
  destruct (failing it) as [[| |stub]|];
    destruct (Dict.mem (route prefix (labels (msg it))) (boxes st)); eauto 6.
Qed.

Lemma iteration_consistent prefix it st :
  consistent st -> consistent (fst (iteration prefix it st)).
Proof.
  intro H.
  destruct (iteration_cases prefix it st) as [E|[(stub & _ & _ & E)|[_ E]]];
    rewrite E; simpl.
  - assumption.
  - now apply spill_consistent, box_for_consistent.
  - now apply add_consistent, box_for_consistent.
Qed.

Lemma iteration_kept prefix it st : kept st (fst (iteration prefix it st)).
Proof.
  destruct (iteration_cases prefix it st) as [E|[(stub & _ & _ & E)|[_ E]]];
    rewrite E; simpl.
  - apply kept_refl.
  - eapply kept_trans; [apply box_for_kept|apply spill_kept].
  - eapply kept_trans; [apply box_for_kept|apply add_kept].
Qed.

Lemma box_for_opened fn st :
  opened (box_for fn st) = opened st \/ opened (box_for fn st) = opened st ++ [fn].
Proof.
  destruct (Dict.mem fn (boxes st)) eqn:E.
  - left. now rewrite box_for_old.
  - right. now rewrite box_for_new.
Qed.

Lemma iteration_opened prefix it st fn :
  In fn (opened (fst (iteration prefix it st))) ->
  In fn (opened st) \/ route prefix (labels (msg it)) = fn.
Proof.
  destruct (iteration_cases prefix it st) as [E|[(stub & _ & _ & E)|[_ E]]];
    rewrite E; simpl; rewrite ?add_opened, ?spill_opened; auto;
    (destruct (box_for_opened (route prefix (labels (msg it))) st) as [-> | ->];
     [auto|]; rewrite in_app_iff; simpl; intuition).
Qed.

Lemma iteration_completed prefix it st :
  snd (iteration prefix it st) = Completed ->
  Dict.mem (route prefix (labels (msg it))) (boxes (fst (iteration prefix it st))) = true.
Proof.
  destruct (iteration_cases prefix it st) as [E|[(stub & _ & _ & E)|[_ E]]];
    rewrite E; simpl; try discriminate.
  intros _. pose proof (box_for_mem (route prefix (labels (msg it))) st) as H.
  destruct (mem_get_true _ _ H) as [b Hb].
  destruct (add_kept (route prefix (labels (msg it))) (raw (msg it)) _ _ Hb)
    as (b' & Hb' & _).
  unfold Dict.mem. now rewrite Hb'.
Qed.

Lemma loop_cons prefix it rest st :
  loop prefix (it :: rest) st =
  match iteration prefix it st with
  | (st', Completed) => loop prefix rest st'
  | (st', Raised) => (st', Raised)
  end.
Proof. reflexivity. Qed.

Lemma loop_app prefix s1 s2 st :
  loop prefix (s1 ++ s2) st =
  match loop prefix s1 st with
  | (st', Completed) => loop prefix s2 st'
  | (st', Raised) => (st', Raised)
  end.
Proof.
  revert st. induction s1 as [|it s1 IH]; intro st; [reflexivity|].
  simpl app. rewrite !loop_cons.
  destruct (iteration prefix it st) as [st' []]; [apply IH|reflexivity].
Qed.

Lemma loop_consistent prefix script st :
  consistent st -> consistent (fst (loop prefix script st)).
Proof.
  revert st. induction script as [|it rest IH]; intros st H; [assumption|].
  rewrite loop_cons.
  pose proof (iteration_consistent prefix it H) as H'.
  destruct (iteration prefix it st) as [st' []]; [now apply IH|assumption].
Qed.

Lemma loop_kept prefix script st : kept st (fst (loop prefix script st)).
Proof.
  revert st. induction script as [|it rest IH]; intro st; [apply kept_refl|].
  rewrite loop_cons.
  pose proof (iteration_kept prefix it st) as H'.
  destruct (iteration prefix it st) as [st' []]; [|assumption].
  eapply kept_trans; [exact H'|apply IH].
Qed.

Lemma loop_opened prefix script st fn :
  In fn (opened (fst (loop prefix script st))) ->
  In fn (opened st) \/
  exists it, In it script /\ route prefix (labels (msg it)) = fn.
Proof.
  revert st. induction script as [|it rest IH]; intros st H; [now left|].
  rewrite loop_cons in H.
  pose proof (@iteration_opened prefix it st fn) as Hit.
  destruct (iteration prefix it st) as [st' []]; simpl in *.
  - destruct (IH _ H) as [H'|(it' & Hin & Hr)].
    + destruct (Hit H') as [?|?]; [now left|right; exists it; auto].
    + right. exists it'. auto.
  - destruct (Hit H) as [?|?]; [now left|right; exists it; auto].
Qed.

Lemma mem_In_keys (V : Type) k (d : Dict.t V) :
  Dict.mem k d = true -> In k (Dict.keys d).
Proof.
  intro H. destruct (in_dec (list_eq_dec ascii_dec) k (Dict.keys d)) as [|Hn];
    [assumption|].
  apply get_None in Hn. unfold Dict.mem in H. now rewrite Hn in H.
Qed.

Lemma kept_mem st st' fn :
  kept st st' -> Dict.mem fn (boxes st) = true -> Dict.mem fn (boxes st') = true.
Proof.
  intros Hk H. destruct (mem_get_true _ _ H) as [b Hb].
  destruct (Hk _ _ Hb) as (b' & Hb' & _). unfold Dict.mem. now rewrite Hb'.
Qed.

Lemma loop_completed prefix script st it :
  snd (loop prefix script st) = Completed -> In it script ->
  Dict.mem (route prefix (labels (msg it))) (boxes (fst (loop prefix script st))) = true.
Proof.
  revert st. induction script as [|it0 rest IH]; intros st Hc Hin; [destruct Hin|].
  rewrite loop_cons in *.
  pose proof (@iteration_completed prefix it0 st) as Hit.
  destruct (iteration prefix it0 st) as [st' []]; simpl in *; [|discriminate].
  destruct Hin as [->|Hin]; [|now apply IH].
  eapply kept_mem; [apply loop_kept|now apply Hit].
Qed.

Lemma readable_plain msgs : forallb plain (readable msgs) = true.
Proof.
  induction msgs as [|m msgs IH]; [reflexivity|]. simpl.
  destruct (plain m) eqn:E; [|reflexivity]. simpl. now rewrite E.
Qed.

Lemma readable_all msgs : forallb plain msgs = true -> readable msgs = msgs.
Proof.
  induction msgs as [|m msgs IH]; [reflexivity|]. simpl.
  destruct (plain m); [|discriminate]. simpl. intro H. now rewrite IH.
Qed.

(** A run in which no call fails and no label header comes as a
    [Header] object appends each message to the file of its destination
    and touches no other file. *)
Lemma loop_quiet prefix msgs st :
  forallb plain msgs = true ->
  snd (loop prefix (map quiet msgs) st) = Completed /\
  forall fn,
    contents fn (fst (loop prefix (map quiet msgs) st)) =
    contents fn st ++
    map raw (filter (fun m => str_eqb (route prefix (labels m)) fn) msgs).
Proof.
  revert st. induction msgs as [|m msgs IH]; intros st Hp.
  - split; [reflexivity|]. intro fn. simpl. now rewrite app_nil_r.
  - simpl in Hp. apply andb_true_iff in Hp as [Hm Hp].
    simpl map. rewrite loop_cons, iteration_quiet by assumption.
    destruct (IH (add (route prefix (labels m)) (raw m)
                      (box_for (route prefix (labels m)) st)) Hp) as [Hc Hf].
    split; [assumption|]. intro fn. rewrite Hf. simpl filter.
    destruct (list_eq_dec ascii_dec (route prefix (labels m)) fn) as [<-|Hne].
    + rewrite str_eqb_refl, add_contents_same by apply box_for_mem.
      rewrite box_for_contents. simpl. now rewrite <- app_assoc.
    + rewrite str_eqb_neq, add_contents_other by assumption.
      now rewrite box_for_contents.
Qed.

Lemma init_consistent : consistent init.
Proof.
  split; [reflexivity|]. split; [constructor|]. intros fn b H. discriminate.
Qed.

Lemma route_convention prefix l :
  route prefix l = prefix ++ display (classify l) ++ py ".mbox".
Proof.
  unfold route. destruct (classify l); simpl; try reflexivity.
  now rewrite <- app_assoc.
Qed.

(** A custom destination bears a name made by the sanitizer. *)
Lemma classify_custom_name l name :
  classify l = Custom name -> exists part, name = sanitize part.
Proof.
  unfold classify. destruct l as [labels|]; [|discriminate].
  destruct (is_empty labels); [discriminate|].
  repeat (match goal with |- context [if ?b then _ else _] => destruct b end;
          [discriminate|]).
  destruct (first_kept (parts_of labels)) as [part|]; [|discriminate].
  intro H. injection H as <-. now exists part.
Qed.

(** A run in which no call fails goes as far as the first [Header]
    object, and stops there with the state it has. *)
Lemma loop_readable prefix msgs st :
  fst (loop prefix (map quiet msgs) st) =
    fst (loop prefix (map quiet (readable msgs)) st) /\
  snd (loop prefix (map quiet msgs) st) =
    if forallb plain msgs then Completed else Raised.
Proof.
  revert st. induction msgs as [|m msgs IH]; intro st; [now split|].
  cbn [readable forallb]. destruct (plain m) eqn:E; cbn [map andb].
  - rewrite !loop_cons, iteration_quiet by assumption. apply IH.
  - rewrite loop_cons, iteration_encoded by assumption. now split.
Qed.

Lemma reached_readable prefix msgs :
  reached prefix (map quiet msgs) = reached prefix (map quiet (readable msgs)).
Proof. unfold reached. apply loop_readable. Qed.

(** What C7 says holds of a run in which no call fails and line 67 gives
    [None] or a [str] for every message: the loop is not left by an
    exception, the file of a message is the prefix, the name its
    destination shows and [.mbox], and each file holds, in order, the
    bytes of the messages routed to it, as they were read, and nothing
    else. *)
Lemma plain_messages_in_one_file prefix msgs :
  forallb plain msgs = true ->
  snd (loop prefix (map quiet msgs) init) = Completed /\
  (forall m, In m msgs ->
     target prefix m = Some (prefix ++ display (classify (labels m)) ++ py ".mbox")) /\
  (forall fn,
     contents fn (reached prefix (map quiet msgs)) =
     map raw (filter (fun m => str_eqb (route prefix (labels m)) fn) msgs)) /\
  (forall fn, leftover fn (reached prefix (map quiet msgs)) = []).
Proof.
  intro Hp. destruct (@loop_quiet prefix msgs init Hp) as [Hc Hf].
  split; [assumption|]. split; [|split].
  - intros m Hin. rewrite forallb_forall in Hp.
    rewrite target_plain by now apply Hp. now rewrite route_convention.
  - intro fn. unfold reached. now rewrite Hf.
  - intro fn. unfold reached. clear Hc Hf.
    assert (H : forall st, leftover fn (fst (loop prefix (map quiet msgs) st)) =
                           leftover fn st).
    { induction msgs as [|m msgs IH]; intro st; [reflexivity|].
      simpl in Hp. apply andb_true_iff in Hp as [Hm Hp].
      simpl map. rewrite loop_cons, iteration_quiet by assumption.
      rewrite (IH Hp). now rewrite add_leftover, box_for_leftover. }
    now rewrite H.
Qed.

(** ** The run: the claims *)

(** C7 fails on the code: a message whose label header holds a byte above
    127 comes from line 67 as a [Header] object, which line 68 takes as
    true and on which line 73 raises; the loop is left there.  Of three
    messages, the second with such a header, the first is in the file of
    the inbox and the two others are in no file. *)
Theorem header_object_ends_the_run :
  get (Message [Byte.x62] (Some cafe)) = Header cafe /\
  target (py "split_") (Message [Byte.x62] (Some cafe)) = None /\
  loop (py "split_") three_messages init =
    (State [(py "split_Inbox.mbox", Mbox 0 [[Byte.x61]] [])]
           [py "split_Inbox.mbox"], Raised) /\
  (forall fn,
     ~ In [Byte.x62] (contents fn (reached (py "split_") three_messages)) /\
     ~ In [Byte.x63] (contents fn (reached (py "split_") three_messages))) /\
  snd (main (py "split_") three_messages all_fine) = Raised.
Proof.
  split; [reflexivity|]. split; [reflexivity|]. split; [reflexivity|].
  split; [|reflexivity].
  intro fn. unfold reached.
  replace (fst (loop (py "split_") three_messages init))
    with (State [(py "split_Inbox.mbox", Mbox 0 [[Byte.x61]] [])]
                [py "split_Inbox.mbox"]) by reflexivity.
  unfold contents. cbn [boxes Dict.get].
  destruct (str_eqb fn (py "split_Inbox.mbox")); cbn [added In].
  - split; intros [H|[]]; discriminate H.
  - split; intros [].
Qed.

(** C8: in the state the loop has reached, after any script and however
    it was left, no file has been opened twice; the keys of [boxes] are
    the files opened; each box is the one made when its file was opened; a
    file is opened only if a message was routed to it, and is open once
    such a message has been handled; the boxes stay the same objects as
    the run goes on; and [box_for] opens a file when it is not in [boxes]
    and returns [boxes] untouched when it is. *)
Theorem one_box_per_filename prefix script :
  NoDup (opened (reached prefix script)) /\
  Dict.keys (boxes (reached prefix script)) = opened (reached prefix script) /\
  (forall fn b, Dict.get fn (boxes (reached prefix script)) = Some b ->
     nth_error (opened (reached prefix script)) (ident b) = Some fn) /\
  (forall fn, In fn (opened (reached prefix script)) ->
     exists it, In it script /\ route prefix (labels (msg it)) = fn) /\
  (snd (loop prefix script init) = Completed ->
   forall it, In it script ->
     In (route prefix (labels (msg it))) (opened (reached prefix script))) /\
  (forall more, kept (reached prefix script) (reached prefix (script ++ more))) /\
  (forall fn st, Dict.mem fn (boxes st) = true -> box_for fn st = st) /\
  (forall fn st, Dict.mem fn (boxes st) = false ->
     opened (box_for fn st) = opened st ++ [fn] /\
     Dict.mem fn (boxes (box_for fn st)) = true).
Proof.
  pose proof (loop_consistent prefix script init_consistent) as (Hk & Hn & Hi).
  fold (reached prefix script) in Hk, Hn, Hi.
  split; [assumption|]. split; [assumption|]. split; [assumption|].
  split; [|split; [|split; [|split]]].
  - intros fn H. unfold reached in H.
    destruct (loop_opened _ _ _ _ H) as [[]|H']. assumption.
  - intros Hc it Hin. rewrite <- Hk. apply mem_In_keys.
    unfold reached. now apply loop_completed.
  - intro more. unfold reached. rewrite loop_app.
    destruct (loop prefix script init) as [st' []]; simpl.
    + apply loop_kept.
    + apply kept_refl.
  - apply box_for_old.
  - intros fn st H. split; [|apply box_for_mem].
    now rewrite box_for_new.
Qed.

Lemma one_box_per_filename_witness :
  In (py "split_Sent.mbox") (opened (reached (py "split_") two_messages)) /\
  box_for (py "split_Sent.mbox") (reached (py "split_") two_messages) =
  reached (py "split_") two_messages.
Proof.
  destruct (one_box_per_filename (py "split_") two_messages)
    as (_ & _ & _ & _ & H5 & _ & H7 & _).
  split.
  - apply (H5 eq_refl (quiet (Message [Byte.x46; Byte.x72; Byte.x6f; Byte.x6d;
                                        Byte.x20; Byte.x62; Byte.x0a]
                                       (Some (py "Sent"))))).
    right. left. reflexivity.
  - apply H7. reflexivity.
Defined.

(** ** The [finally] block: the claim *)

Lemma close_boxes_calm io fns :
  calm io ->
  close_boxes io fns =
  (flat_map (fun fn => [Flush fn; Close fn]) fns, Completed).
Proof.
  intro H. induction fns as [|fn rest IH]; [reflexivity|]. simpl.
  destruct (H fn) as [Hc Hf]. rewrite Hc, IH.
  destruct (flush_ends (io fn)); [reflexivity|reflexivity|now destruct Hf].
Qed.

(** When no [close] raises and no [flush] raises past line 107, every box
    that was opened is flushed, then closed, and the source is closed,
    however the loop was left. *)
Lemma main_closes_all_when_calm prefix script io :
  calm io ->
  snd (fst (main prefix script io)) = all_closed (opened (reached prefix script)).
Proof.
  intro H. unfold main, reached.
  pose proof (loop_consistent prefix script init_consistent) as (Hk & _).
  destruct (loop prefix script init) as [st e1]. simpl in *.
  unfold finally. rewrite (close_boxes_calm _ H), Hk. reflexivity.
Qed.

(** C9 fails on the code: with two boxes open and a [close] that raises on
    the first one (its [flush] has raised before, and was caught), the
    exception leaves the loop of line 104 at line 109: the second box is
    neither flushed nor closed and the source is not closed. *)
Theorem finally_leaves_boxes_open :
  opened (reached (py "split_") two_messages) =
    [py "split_Inbox.mbox"; py "split_Sent.mbox"] /\
  snd (fst (main (py "split_") two_messages first_close_raises)) =
    [Flush (py "split_Inbox.mbox"); Close (py "split_Inbox.mbox")] /\
  ~ In (Flush (py "split_Sent.mbox"))
       (snd (fst (main (py "split_") two_messages first_close_raises))) /\
  ~ In (Close (py "split_Sent.mbox"))
       (snd (fst (main (py "split_") two_messages first_close_raises))) /\
  ~ In CloseSrc (snd (fst (main (py "split_") two_messages first_close_raises))) /\
  snd (main (py "split_") two_messages first_close_raises) = Raised.
Proof.
  vm_compute. repeat split; try reflexivity;
    intros [H|[H|[]]]; discriminate H.
Qed.

(** ** More on the sanitizer *)

Lemma sd_spec c : sd c = true <-> c = " "%char \/ c = dot.
Proof.
  destruct c as [[] [] [] [] [] [] [] []]; vm_compute; split; intro H; auto;
    try discriminate; destruct H as [H|H]; discriminate H.
Qed.

Lemma last_ok_snoc p s c : last_ok p (s ++ [c]) = negb (p c).
Proof. unfold last_ok. now rewrite rev_app_distr. Qed.

(** X1: whatever the label and whatever the bound, negative ones
    included, the name [safe_label] returns neither starts nor ends with a
    space or a period. *)
Theorem safe_label_clean_ends label maxlen :
  (forall c r, safe_label label maxlen = c :: r ->
     c <> " "%char /\ c <> dot) /\
  (forall r c, safe_label label maxlen = r ++ [c] ->
     c <> " "%char /\ c <> dot).
Proof.
  pose proof (safe_label_head_ok label maxlen) as Hh.
  pose proof (safe_label_last_ok label maxlen) as Hl.
  split.
  - intros c r E. rewrite E in Hh. simpl in Hh. apply negb_true_iff in Hh.
    split; intro Hc; subst c; discriminate Hh.
  - intros r c E. rewrite E, last_ok_snoc in Hl. apply negb_true_iff in Hl.
    split; intro Hc; subst c; discriminate Hl.
Qed.

Lemma safe_label_clean_ends_witness :
  "L"%char <> " "%char /\ "L"%char <> dot.
Proof.
  apply (proj1 (safe_label_clean_ends (py " .. Lists. ") 120) "L"%char (py "ists")).
  reflexivity.
Defined.

Lemma lstrip_by_skip p ws s :
  Forall (fun c => p c = true) ws -> lstrip_by p (ws ++ s) = lstrip_by p s.
Proof. intro H. now rewrite lstrip_by_app, lstrip_by_all. Qed.

Lemma rstrip_by_skip p s ws :
  Forall (fun c => p c = true) ws -> rstrip_by p (s ++ ws) = rstrip_by p s.
Proof.
  intro H. unfold rstrip_by. rewrite rev_app_distr.
  rewrite lstrip_by_skip; [reflexivity|]. now apply Forall_rev.
Qed.

Lemma strip_by_skip p ws1 s ws2 :
  Forall (fun c => p c = true) ws1 -> Forall (fun c => p c = true) ws2 ->
  strip_by p (ws1 ++ s ++ ws2) = strip_by p s.
Proof.
  intros H1 H2. unfold strip_by. rewrite lstrip_by_skip by assumption.
  rewrite lstrip_by_app. destruct (lstrip_by p s) as [|a l] eqn:E.
  - now rewrite lstrip_by_all.
  - now apply rstrip_by_skip.
Qed.

(** X2: white space around a label does not count: a label and the same
    label between two runs of white space characters get the same name. *)
Theorem safe_label_ignores_outer_space ws1 label ws2 maxlen :
  Forall (fun c => isspace c = true) ws1 ->
  Forall (fun c => isspace c = true) ws2 ->
  safe_label (ws1 ++ label ++ ws2) maxlen = safe_label label maxlen.
Proof.
  intros H1 H2. unfold safe_label, named, cleaned, strip.
  now rewrite strip_by_skip.
Qed.

Lemma safe_label_ignores_outer_space_witness :
  safe_label (py "  " ++ py "Some Project" ++ [ascii_of_N 9; ascii_of_N 10]) 120 =
  safe_label (py "Some Project") 120.
Proof.
  apply safe_label_ignores_outer_space.
  - repeat constructor.
  - repeat constructor.
Defined.




Lemma upper_lower_char c : upper_char (lower_char c) = upper_char c.
Proof. destruct c as [[] [] [] [] [] [] [] []]; reflexivity. Qed.

Lemma upper_lower s : upper (lower s) = upper s.
Proof.
  induction s as [|c s IH]; [reflexivity|].
  simpl. now rewrite upper_lower_char, IH.
Qed.

(** X4: the test of line 23 does not see the case of the letters: a
    name and its lower case are reserved together, and a name whose lower
    case is reserved gets the underscore. *)
Theorem reserved_whatever_the_case s :
  reserved (lower s) = reserved s /\
  (reserved (lower (cleaned s)) = true ->
   named s = "_"%char :: cleaned s).
Proof.
  assert (H : forall t, reserved (lower t) = reserved t).
  { intro t. unfold reserved. now rewrite upper_lower. }
  split; [apply H|].
  rewrite H. intro Hr. unfold named. now rewrite Hr.
Qed.

Lemma reserved_whatever_the_case_witness :
  named (py "Lpt1") = "_"%char :: cleaned (py "Lpt1").
Proof.
  apply (proj2 (reserved_whatever_the_case (py "Lpt1"))). reflexivity.
Defined.

(** ** More on the classification *)

Lemma split_first sep r h t :
  split sep r = h :: t ->
  (r = h /\ t = []) \/ exists rest, r = h ++ sep :: rest.
Proof.
  revert h t. induction r as [|c r IH]; intros h t H.
  - injection H as <- <-. now left.
  - rewrite split_cons in H. destruct (Ascii.eqb_spec c sep) as [->|Hc].
    + injection H as <- <-. right. now exists r.
    + pose proof (split_nonempty sep r) as Hne.
      destruct (split sep r) as [|h' t'] eqn:E; [now destruct Hne|].
      injection H as <- <-.
      destruct (IH _ _ eq_refl) as [[-> ->]|[rest ->]].
      * now left.
      * right. now exists rest.
Qed.

Lemma startswith_before_sep sep w x rest :
  ~ In sep w -> startswith w (x ++ sep :: rest) = startswith w x.
Proof.
  revert x. induction w as [|a w IH]; intros x H; [reflexivity|].
  destruct x as [|b x]; simpl.
  - destruct (Ascii.eqb_spec a sep) as [->|Ha]; [|reflexivity].
    destruct H. now left.
  - f_equal. apply IH. intro Hin. apply H. now right.
Qed.

Lemma existsb_cons (A : Type) (f : A -> bool) a l :
  existsb f (a :: l) = f a || existsb f l.
Proof. reflexivity. Qed.

Lemma contains_nil w : w <> [] -> contains w [] = false.
Proof. destruct w; [intro H; now destruct H|reflexivity]. Qed.

Lemma startswith_sep sep w r : w <> [] -> ~ In sep w -> startswith w (sep :: r) = false.
Proof.
  destruct w as [|a w]; [intro H; now destruct H|]. intros _ H. simpl.
  destruct (Ascii.eqb_spec a sep) as [->|Ha]; [|reflexivity].
  destruct H. now left.
Qed.

(** A word without the separator occurs in a string when it occurs in one
    of its parts. *)
Lemma contains_split sep w s :
  w <> [] -> ~ In sep w ->
  contains w s = existsb (contains w) (split sep s).
Proof.
  intros Hw Hsep. induction s as [|c r IH].
  - change (split sep []) with [@nil ascii]. rewrite existsb_cons.
    simpl existsb. now rewrite orb_false_r.
  - rewrite split_cons, contains_cons.
    destruct (Ascii.eqb_spec c sep) as [->|Hc].
    + rewrite existsb_cons, IH, contains_nil, startswith_sep by assumption.
      reflexivity.
    + pose proof (split_nonempty sep r) as Hne.
      destruct (split sep r) as [|h t] eqn:E; [now destruct Hne|].
      rewrite existsb_cons in *. rewrite contains_cons, IH.
      destruct (split_first _ _ E) as [[-> ->]|[rest ->]].
      * rewrite !orb_assoc. reflexivity.
      * change (c :: h ++ sep :: rest) with ((c :: h) ++ sep :: rest).
        rewrite startswith_before_sep by assumption.
        now rewrite !orb_assoc.
Qed.

Lemma lower_char_comma c : Ascii.eqb (lower_char c) comma = Ascii.eqb c comma.
Proof. destruct c as [[] [] [] [] [] [] [] []]; reflexivity. Qed.

Lemma split_lower s : split comma (lower s) = map lower (split comma s).
Proof.
  induction s as [|c r IH]; [reflexivity|].
  simpl lower. rewrite !split_cons, lower_char_comma. fold (lower r). rewrite IH.
  destruct (Ascii.eqb c comma); [reflexivity|].
  destruct (split comma r); reflexivity.
Qed.

Lemma system_word_plain w :
  In w system_words -> w <> [] /\ ~ In comma w.
Proof.
  unfold system_words. simpl.
  intros [<-|[<-|[<-|[<-|[]]]]]; split; try discriminate;
    simpl; intuition discriminate.
Qed.

Lemma classify_spam_iff labels :
  labels <> [] ->
  (classify (Some labels) = Spam <-> contains (py "spam") (lower labels) = true).
Proof.
  intro Hne. unfold classify.
  destruct labels as [|c r]; [now destruct Hne|]. unfold is_empty.
  destruct (contains (py "spam") (lower (c :: r))); [tauto|].
  split; [|discriminate].
  repeat (match goal with |- context [if ?b then _ else _] => destruct b end;
          [discriminate|]).
  destruct (first_kept _); discriminate.
Qed.

(** X6: the case of the letters plays no part in the choice of the inbox,
    sent, spam and trash files: when one label string goes to one of
    them, every string with the same lower case goes there too. *)
Theorem system_routing_ignores_case l1 l2 :
  lower l1 = lower l2 ->
  In (classify (Some l1)) system_buckets ->
  classify (Some l2) = classify (Some l1).
Proof.
  intros Hl Hin. unfold classify in *.
  destruct l1 as [|c1 r1].
  { simpl in Hin. intuition discriminate. }
  destruct l2 as [|c2 r2]; [discriminate|].
  unfold is_empty in *. rewrite <- Hl.
  repeat (match goal with |- context [if ?b then _ else _] => destruct b end;
          [reflexivity|]).
  destruct (first_kept (parts_of (c1 :: r1))); simpl in Hin;
    intuition discriminate.
Qed.

Lemma system_routing_ignores_case_witness :
  classify (Some (py "work, inBOX")) = classify (Some (py "Work, Inbox")).
Proof.
  apply system_routing_ignores_case.
  - reflexivity.
  - left. reflexivity.
Defined.

Lemma display_legal l : legal (display (classify l)).
Proof.
  destruct (classify l) as [| | | | |name] eqn:E;
    [ unfold legal; simpl; repeat constructor ..
    | destruct (classify_custom_name _ E) as [part ->];
      exact (safe_label_legal part maxlen_default) ].
Qed.

(** X7: with a prefix that holds no illegal character, the name of every
    output file holds none; the name is the prefix, then a name that is
    not empty, at most 120 characters long and without a space or a
    period at its ends, then [.mbox]. *)
Theorem route_legal prefix l :
  legal prefix ->
  legal (route prefix l) /\
  exists name,
    route prefix l = prefix ++ name ++ py ".mbox" /\
    name <> [] /\ (List.length name <= 120)%nat /\
    head_ok sd name = true /\ last_ok sd name = true.
Proof.
  intro Hp. split.
  - rewrite route_convention. unfold legal.
    rewrite !Forall_app. split; [assumption|]. split; [apply display_legal|].
    simpl. repeat constructor.
  - exists (display (classify l)). split; [apply route_convention|].
    destruct (classify l) as [| | | | |name] eqn:E;
      [ simpl; repeat split; (discriminate || lia || reflexivity) .. | ].
    destruct (classify_custom_name _ E) as [part ->]. unfold display, sanitize.
    split; [apply safe_label_nonempty; unfold maxlen_default; lia|].
    split; [|split; [apply safe_label_head_ok|apply safe_label_last_ok]].
    pose proof (@safe_label_length part maxlen_default) as H.
    unfold maxlen_default in *. lia.
Qed.

Lemma route_legal_witness :
  legal (route (py "split_") (Some (py "a<b>c:d, Unread"))).
Proof.
  apply route_legal. unfold legal. simpl. repeat constructor.
Defined.

(** ** Custom names and the files of the system labels *)

Lemma occurs_in_refl s : occurs_in s s.
Proof. exists [], []. now rewrite app_nil_r. Qed.

Lemma occurs_in_trans x y z : occurs_in x y -> occurs_in y z -> occurs_in x z.
Proof.
  intros [a [b ->]] [c [d ->]]. exists (c ++ a), (b ++ d).
  now rewrite <- !app_assoc.
Qed.

Lemma occurs_in_lower x s : occurs_in x s -> occurs_in (lower x) (lower s).
Proof.
  intros [a [b ->]]. exists (lower a), (lower b).
  unfold lower. now rewrite !map_app.
Qed.

Lemma lstrip_by_suffix p s : exists a, s = a ++ lstrip_by p s.
Proof.
  induction s as [|c s [a IH]]; [now exists []|]. simpl.
  destruct (p c); [|now exists []].
  exists (c :: a). simpl. now rewrite <- IH.
Qed.

Lemma strip_by_occurs p s : occurs_in (strip_by p s) s.
Proof.
  unfold strip_by.
  destruct (lstrip_by_suffix p s) as [a Ha].
  destruct (rstrip_by_prefix p (lstrip_by p s)) as [b Hb].
  exists a, b. now rewrite <- Hb.
Qed.

Lemma split_occurs sep s part : In part (split sep s) -> occurs_in part s.
Proof.
  revert part. induction s as [|c r IH]; intros part H.
  - destruct H as [<-|[]]. apply occurs_in_refl.
  - rewrite split_cons in H. destruct (Ascii.eqb_spec c sep) as [->|Hc].
    + destruct H as [<-|H]; [now exists [], (sep :: r)|].
      destruct (IH _ H) as [a [b ->]]. now exists (sep :: a), b.
    + pose proof (split_nonempty sep r) as Hne.
      destruct (split sep r) as [|h t] eqn:E; [now destruct Hne|].
      destruct H as [<-|H].
      * destruct (split_first _ _ E) as [[-> ->]|[rest ->]].
        -- apply occurs_in_refl.
        -- now exists [], (sep :: rest).
      * destruct (IH part (or_intror H)) as [a [b ->]]. now exists (c :: a), b.
Qed.

Lemma sub_illegal_dotfree s x :
  sub_illegal s = x -> ~ In dot x -> s = x.
Proof.
  revert x. induction s as [|c s IH]; intros x H Hx; [assumption|].
  change (sub_illegal (c :: s))
    with ((if _ILLEGAL c then dot else c) :: sub_illegal s) in H.
  destruct x as [|d x]; [discriminate|].
  injection H as Hd Hs. f_equal.
  - destruct (_ILLEGAL c); [|assumption].
    destruct Hx. left. now symmetry.
  - apply IH; [assumption|]. intro Hin. apply Hx. now right.
Qed.

Lemma sub_illegal_occurs x s :
  ~ In dot x -> occurs_in x (sub_illegal s) -> occurs_in x s.
Proof.
  intros Hx [a [b H]]. unfold sub_illegal in H.
  apply map_eq_app in H as (a' & r & -> & Ha & H).
  apply map_eq_app in H as (x' & b' & -> & Hx' & Hb).
  apply sub_illegal_dotfree in Hx'; [|assumption]. subst x'.
  now exists a', b'.
Qed.

Lemma startswith_replace_dotdot x s :
  ~ In dot x ->
  startswith x (replace_dotdot s) = true -> startswith x s = true.
Proof.
  revert s. induction x as [|c x IH]; intros s Hx H; [reflexivity|].
  destruct s as [|a [|b l]]; [discriminate H|exact H|].
  rewrite replace_dotdot_cons2 in H.
  destruct (Ascii.eqb a dot && Ascii.eqb b dot).
  - simpl in H. apply andb_prop in H as [H _].
    apply Ascii.eqb_eq in H. destruct Hx. now left.
  - change (Ascii.eqb c a && startswith x (replace_dotdot (b :: l)) = true) in H.
    apply andb_prop in H as [H1 H2].
    change (Ascii.eqb c a && startswith x (b :: l) = true).
    rewrite H1. simpl. apply IH; [|assumption].
    intro Hin. apply Hx. now right.
Qed.

Lemma contains_empty s : contains [] s = true.
Proof. destruct s; reflexivity. Qed.

Lemma contains_replace_dotdot x s :
  ~ In dot x ->
  contains x (replace_dotdot s) = true -> contains x s = true.
Proof.
  intro Hx. destruct x as [|c x]; [intros _; apply contains_empty|].
  induction s as [| a | a b l IH1 IH2] using list_ind2; intro H.
  - exact H.
  - exact H.
  - pose proof (@startswith_replace_dotdot (c :: x) (a :: b :: l) Hx) as Hs.
    rewrite replace_dotdot_cons2 in H, Hs.
    destruct (Ascii.eqb a dot && Ascii.eqb b dot).
    + rewrite contains_cons in H. apply orb_prop in H as [H|H].
      * rewrite contains_cons, (Hs H). reflexivity.
      * rewrite !contains_cons, (IH1 H), !orb_true_r. reflexivity.
    + rewrite contains_cons in H. apply orb_prop in H as [H|H].
      * rewrite contains_cons, (Hs H). reflexivity.
      * rewrite contains_cons, (IH2 H), orb_true_r. reflexivity.
Qed.

Lemma cleaned_occurs x part :
  ~ In dot x -> (forall t, py "Archive" <> x ++ t) ->
  (exists t, cleaned part = x ++ t) -> occurs_in x part.
Proof.
  intros Hx Ha [t H]. unfold cleaned in H.
  destruct (is_empty _); [now destruct (Ha t)|].
  eapply occurs_in_trans; [|apply (strip_by_occurs isspace)].
  apply sub_illegal_occurs; [assumption|].
  apply contains_spec, contains_replace_dotdot; [assumption|].
  apply contains_spec.
  eapply occurs_in_trans; [|apply (strip_by_occurs sd)].
  exists [], t. exact H.
Qed.

Lemma sanitize_occurs x part :
  ~ In dot x -> (forall t, py "Archive" <> x ++ t) ->
  (forall r, x <> "_"%char :: r) ->
  sanitize part = x -> occurs_in x part.
Proof.
  intros Hx Ha Hu H. apply cleaned_occurs; try assumption.
  destruct (reserved (cleaned part)) eqn:E.
  - assert (Hm : (1 <= maxlen_default)%Z) by (unfold maxlen_default; lia).
    destruct (safe_label_underscore part Hm E) as [r Hr].
    unfold sanitize in H. rewrite Hr in H. now destruct (Hu r).
  - destruct (safe_label_prefix part maxlen_default E) as [t Ht].
    exists t. unfold sanitize in H. now rewrite <- H.
Qed.

Lemma classify_custom_inv labels name :
  classify (Some labels) = Custom name ->
  (forall w, In w system_words -> contains w (lower labels) = false) /\
  exists part, In part (parts_of labels) /\ name = sanitize part.
Proof.
  unfold classify. destruct (is_empty labels); [discriminate|].
  destruct (contains (py "spam") (lower labels)) eqn:E1; [discriminate|].
  destruct (contains (py "trash") (lower labels)) eqn:E2; [discriminate|].
  destruct (contains (py "inbox") (lower labels)) eqn:E3; [discriminate|].
  destruct (contains (py "sent") (lower labels)) eqn:E4; [discriminate|].
  destruct (first_kept (parts_of labels)) as [part|] eqn:E; [|discriminate].
  intro H. injection H as <-. split.
  - unfold system_words. simpl. intros w [<-|[<-|[<-|[<-|[]]]]]; assumption.
  - exists part. split; [|reflexivity].
    destruct (first_kept_some _ E) as (pre & post & -> & _).
    apply in_elt.
Qed.

Lemma part_occurs labels part :
  In part (parts_of labels) -> occurs_in part labels.
Proof.
  unfold parts_of. intro H. apply in_map_iff in H as [seg [<- Hseg]].
  eapply occurs_in_trans; [apply strip_by_occurs|].
  eapply split_occurs, Hseg.
Qed.

Lemma system_file_name prefix b :
  In b system_buckets ->
  filename prefix b = prefix ++ display b ++ py ".mbox" /\
  In (lower (display b)) system_words /\
  ~ In dot (display b) /\
  (forall t, py "Archive" <> display b ++ t) /\
  (forall r, display b <> "_"%char :: r).
Proof.
  unfold system_buckets, system_words. simpl.
  intros [<-|[<-|[<-|[<-|[]]]]]; simpl;
    (split; [reflexivity|]);
    (split; [auto 6|]);
    (split; [intuition discriminate|]);
    split; intros; discriminate.
Qed.

Lemma target_spam prefix m :
  target prefix m = Some (prefix ++ py "Spam.mbox") <->
  exists l, get m = Str l /\ classify (Some l) = Spam.
Proof.
  unfold target. destruct (get m) as [|l|s].
  - split; [|intros (l & H & _); discriminate].
    intro H. injection H as H. apply app_inv_head in H.
    vm_compute in H. discriminate H.
  - split.
    + intro H. injection H as H. exists l. split; [reflexivity|].
      unfold route in H.
      destruct (classify (Some l)) as [| | | | |name] eqn:Ec;
        try reflexivity;
        try (apply app_inv_head in H; vm_compute in H; discriminate H).
      exfalso.
      assert (Hb : In Spam system_buckets) by (right; right; left; reflexivity).
      destruct (classify_custom_inv _ Ec) as [Hfree (part & Hpart & Hname)].
      destruct (system_file_name prefix Hb) as (Hfn & Hw & Hdot & Harch & Hund).
      assert (Heq : filename prefix (Custom name) = filename prefix Spam)
        by exact H.
      rewrite Hfn in Heq. unfold filename in Heq. rewrite <- app_assoc in Heq.
      apply app_inv_head, app_inv_tail in Heq.
      assert (Hocc : occurs_in (display Spam) part).
      { apply sanitize_occurs; try assumption. now rewrite <- Hname. }
      pose proof (occurs_in_lower (occurs_in_trans Hocc (part_occurs _ _ Hpart)))
        as H'.
      apply contains_spec in H'. rewrite (Hfree _ Hw) in H'. discriminate.
    + intros (l' & H & Hc). injection H as <-. unfold route. now rewrite Hc.
  - split; [discriminate|intros (l & H & _); discriminate].
Qed.

(** X5: each of the four words is looked for across the whole string but
    can only be found inside one of the labels that the commas separate; so
    a label string that is not empty is classified as spam exactly when one
    of its labels holds [spam], in any case and at any place in the list;
    and a message is for the spam file exactly when line 67 gives a [str]
    with such a label: a label header that comes as a [Header] object
    sends the message to no file, whatever its labels hold. *)
Theorem system_word_in_some_label labels w :
  In w system_words ->
  (occurs_in w (lower labels) <->
   exists part, In part (split comma labels) /\ occurs_in w (lower part)) /\
  (labels <> [] ->
   (classify (Some labels) = Spam <->
    exists part, In part (split comma labels) /\
                 occurs_in (py "spam") (lower part))) /\
  (forall prefix m,
     target prefix m = Some (prefix ++ py "Spam.mbox") <->
     exists l part, get m = Str l /\ In part (split comma l) /\
                    occurs_in (py "spam") (lower part)).
Proof.
  assert (H : forall l v, In v system_words ->
    (occurs_in v (lower l) <->
     exists part, In part (split comma l) /\ occurs_in v (lower part))).
  { intros l v Hv. destruct (system_word_plain Hv) as [Hne Hc].
    rewrite <- contains_spec, (@contains_split comma v (lower l) Hne Hc).
    rewrite split_lower, existsb_exists. split.
    - intros [p [Hin Hp]]. apply in_map_iff in Hin as [part [<- Hin]].
      exists part. split; [assumption|now apply contains_spec].
    - intros [part [Hin Hp]]. exists (lower part).
      split; [now apply in_map|now apply contains_spec]. }
  assert (Hs : In (py "spam") system_words) by (left; reflexivity).
  assert (H2 : forall l, l <> [] ->
    (classify (Some l) = Spam <->
     exists part, In part (split comma l) /\ occurs_in (py "spam") (lower part))).
  { intros l Hne. rewrite (classify_spam_iff Hne), contains_spec.
    now apply H. }
  intro Hw. split; [now apply H|]. split; [apply H2|].
  intros prefix m. rewrite target_spam. split.
  - intros (l & Hg & Hc). exists l.
    destruct l as [|c r]; [discriminate Hc|].
    apply H2 in Hc as (part & Hin & Hocc); [|discriminate].
    exists part. auto.
  - intros (l & part & Hg & Hin & Hocc). exists l. split; [assumption|].
    destruct l as [|c r].
    + destruct Hin as [<-|[]]. apply contains_spec in Hocc. discriminate Hocc.
    + apply H2; [discriminate|]. exists part. auto.
Qed.

Lemma system_word_in_some_label_witness :
  target (py "split_") (Message [Byte.x61] (Some (py "Work,Unread,\Spam"))) =
  Some (py "split_Spam.mbox").
Proof.
  apply (proj2 (proj2 (@system_word_in_some_label (py "Work,Unread,\Spam")
                         (py "spam") (or_introl eq_refl)))
               (py "split_") (Message [Byte.x61] (Some (py "Work,Unread,\Spam")))).
  exists (py "Work,Unread,\Spam"), (py "\Spam"). split; [reflexivity|]. split.
  - right. right. left. reflexivity.
  - apply contains_spec. reflexivity.
Defined.

(** X8: a custom destination never has the file of the inbox, of the sent
    mail, of the spam or of the trash: the name [safe_label] makes of a
    label is one of these four names only when the label holds it, and
    such a label is routed by lines 76-83.  (The file of the fallback is
    the only one a custom destination can share.) *)
Theorem custom_file_is_no_system_file prefix labels name b :
  classify (Some labels) = Custom name ->
  In b system_buckets ->
  filename prefix (Custom name) <> filename prefix b.
Proof.
  intros Hc Hb Heq.
  destruct (classify_custom_inv _ Hc) as [Hfree (part & Hpart & Hname)].
  destruct (system_file_name prefix Hb) as (Hfn & Hw & Hdot & Harch & Hund).
  rewrite Hfn in Heq. unfold filename in Heq. rewrite <- app_assoc in Heq.
  apply app_inv_head, app_inv_tail in Heq.
  assert (Hocc : occurs_in (display b) part).
  { apply sanitize_occurs; try assumption. now rewrite <- Hname. }
  pose proof (occurs_in_lower (occurs_in_trans Hocc (part_occurs _ _ Hpart))) as H.
  apply contains_spec in H. rewrite (Hfree _ Hw) in H. discriminate.
Qed.

Lemma custom_file_is_no_system_file_witness :
  filename (py "split_") (Custom (py "In.box")) <> filename (py "split_") Inbox.
Proof.
  apply (@custom_file_is_no_system_file (py "split_") (py "Unread, In/box")).
  - reflexivity.
  - left. reflexivity.
Defined.

(** ** More on the run *)

Lemma mem_opened st fn :
  consistent st ->
  Dict.mem fn (boxes st) = existsb (str_eqb fn) (opened st).
Proof.
  intros (Hk & _). rewrite <- Hk.
  destruct (existsb (str_eqb fn) (Dict.keys (boxes st))) eqn:E.
  - apply existsb_exists in E as (x & Hin & Hx). apply str_eqb_eq in Hx. subst x.
    unfold Dict.mem. destruct (Dict.get fn (boxes st)) eqn:G; [reflexivity|].
    now apply get_None in G.
  - destruct (Dict.mem fn (boxes st)) eqn:M; [|reflexivity].
    apply mem_In_keys in M. rewrite <- E. symmetry. apply existsb_exists.
    exists fn. split; [assumption|apply str_eqb_refl].
Qed.

Lemma loop_quiet_opened prefix msgs st :
  forallb plain msgs = true ->
  consistent st ->
  opened (fst (loop prefix (map quiet msgs) st)) =
  opened st ++ first_uses (opened st) (map (fun m => route prefix (labels m)) msgs).
Proof.
  revert st. induction msgs as [|m msgs IH]; intros st Hp Hc.
  - simpl. now rewrite app_nil_r.
  - simpl in Hp. apply andb_true_iff in Hp as [Hm Hp].
    simpl map. rewrite loop_cons, iteration_quiet by assumption.
    rewrite IH by (assumption || now apply add_consistent, box_for_consistent).
    rewrite add_opened. simpl first_uses. rewrite <- (mem_opened _ Hc).
    destruct (Dict.mem (route prefix (labels m)) (boxes st)) eqn:E.
    + now rewrite box_for_old.
    + rewrite box_for_new by assumption. simpl opened.
      now rewrite <- app_assoc.
Qed.

(** X9: in a run in which no call fails the files are opened in the
    order in which the first message of each comes, each once: this is the
    order of [boxes], in which the [finally] block closes them.  The
    messages that count are the ones in front of the first whose label
    header is a [Header] object, all of them when there is none. *)
Theorem files_opened_in_order_of_first_use prefix msgs :
  opened (reached prefix (map quiet msgs)) =
    first_uses [] (map (fun m => route prefix (labels m)) (readable msgs)) /\
  Dict.keys (boxes (reached prefix (map quiet msgs))) =
    first_uses [] (map (fun m => route prefix (labels m)) (readable msgs)) /\
  (forall io, calm io ->
     snd (fst (main prefix (map quiet msgs) io)) =
     all_closed (first_uses []
                   (map (fun m => route prefix (labels m)) (readable msgs)))).
Proof.
  pose proof (@loop_quiet_opened prefix (readable msgs) init
                (readable_plain msgs) init_consistent) as H.
  pose proof (loop_consistent prefix (map quiet msgs) init_consistent) as (Hk & _).
  fold (reached prefix (map quiet (readable msgs))) in H.
  rewrite <- reached_readable in H.
  fold (reached prefix (map quiet msgs)) in Hk. simpl in H.
  split; [assumption|]. split; [now rewrite Hk|].
  intros io Hio. unfold main.
  unfold reached in H, Hk.
  destruct (loop prefix (map quiet msgs) init) as [st e1]. simpl in *.
  unfold finally. rewrite (close_boxes_calm _ Hio), Hk, H. reflexivity.
Qed.

Lemma files_opened_in_order_witness :
  snd (fst (main (py "split_") two_messages all_fine)) =
  all_closed [py "split_Inbox.mbox"; py "split_Sent.mbox"].
Proof.
  apply (proj2 (proj2 (files_opened_in_order_of_first_use (py "split_")
     [Message [Byte.x46; Byte.x72; Byte.x6f; Byte.x6d; Byte.x20; Byte.x61; Byte.x0a]
              (Some (py "Inbox"));
      Message [Byte.x46; Byte.x72; Byte.x6f; Byte.x6d; Byte.x20; Byte.x62; Byte.x0a]
              (Some (py "Sent"))]))).
  intro fn. split; [reflexivity|discriminate].
Defined.

Lemma list_sum_zero (A : Type) (l : list A) :
  list_sum (map (fun _ => 0%nat) l) = 0%nat.
Proof. induction l; simpl; auto. Qed.

Lemma list_sum_add (A : Type) (f g : A -> nat) l :
  list_sum (map (fun x => (f x + g x)%nat) l) =
  (list_sum (map f l) + list_sum (map g l))%nat.
Proof. induction l as [|a l IH]; simpl; [reflexivity|]. rewrite IH. lia. Qed.

Lemma list_sum_one k (U : list str) :
  NoDup U -> In k U ->
  list_sum (map (fun fn => if str_eqb k fn then 1%nat else 0%nat) U) = 1%nat.
Proof.
  induction 1 as [|a U Ha HU IH]; intro Hin; [destruct Hin|]. simpl.
  destruct Hin as [->|Hin].
  - rewrite str_eqb_refl.
    rewrite (map_ext_in _ (fun _ => 0%nat)); [now rewrite list_sum_zero|].
    intros fn Hfn. rewrite str_eqb_neq; [reflexivity|]. intros ->. auto.
  - rewrite str_eqb_neq by (intros ->; auto). now apply IH.
Qed.

Lemma partition_count (f : message -> str) msgs U :
  NoDup U -> (forall m, In m msgs -> In (f m) U) ->
  list_sum (map (fun fn => List.length (filter (fun m => str_eqb (f m) fn) msgs)) U)
  = List.length msgs.
Proof.
  intros HU. induction msgs as [|m msgs IH]; intro Hin.
  - simpl. apply list_sum_zero.
  - rewrite (map_ext _
      (fun fn => ((if str_eqb (f m) fn then 1 else 0) +
                  List.length (filter (fun m => str_eqb (f m) fn) msgs))%nat)).
    + rewrite list_sum_add, list_sum_one, IH.
      * reflexivity.
      * intros m' Hm'. apply Hin. now right.
      * assumption.
      * apply Hin. now left.
    + intro fn. simpl. now destruct (str_eqb (f m) fn).
Qed.

Lemma plain_run_stores_all prefix msgs :
  forallb plain msgs = true ->
  stored (reached prefix (map quiet msgs)) = List.length msgs.
Proof.
  intro Hp. unfold stored.
  pose proof (loop_consistent prefix (map quiet msgs) init_consistent)
    as (Hk & Hn & _).
  destruct (@loop_quiet prefix msgs init Hp) as [Hc Hf].
  fold (reached prefix (map quiet msgs)) in Hk, Hn.
  rewrite (map_ext _ (fun fn => List.length
             (filter (fun m => str_eqb (route prefix (labels m)) fn) msgs))).
  - apply partition_count; [assumption|].
    intros m Hm. rewrite <- Hk. apply mem_In_keys.
    apply (@loop_completed prefix (map quiet msgs) init (quiet m) Hc).
    now apply in_map.
  - intro fn. unfold reached. rewrite Hf. simpl. now rewrite length_map.
Qed.

(** X10: a run in which no call fails loses no message and writes none
    twice, as far as it goes: the boxes hold, together, as many byte
    strings as there are messages in front of the first one whose label
    header is a [Header] object, and as many as there are messages when
    there is none. *)
Theorem no_message_lost_or_doubled prefix msgs :
  stored (reached prefix (map quiet msgs)) = List.length (readable msgs) /\
  (forallb plain msgs = true ->
   stored (reached prefix (map quiet msgs)) = List.length msgs).
Proof.
  split; [|apply plain_run_stores_all].
  rewrite reached_readable. apply plain_run_stores_all, readable_plain.
Qed.

Lemma no_message_lost_or_doubled_witness :
  stored (reached (py "split_")
            (map quiet [Message [Byte.x61] (Some (py "Inbox, Work"));
                        Message [Byte.x62] None;
                        Message [Byte.x63] (Some (py "Work"))])) = 3%nat.
Proof.
  apply (proj2 (no_message_lost_or_doubled (py "split_")
           [Message [Byte.x61] (Some (py "Inbox, Work"));
            Message [Byte.x62] None;
            Message [Byte.x63] (Some (py "Work"))])).
  reflexivity.
Defined.

Lemma close_boxes_cons io fn rest :
  close_boxes io (fn :: rest) =
  match flush_ends (io fn) with
  | FlushRaisesOther => ([Flush fn], Raised)
  | _ =>
      if close_raises (io fn) then ([Flush fn; Close fn], Raised)
      else (Flush fn :: Close fn :: fst (close_boxes io rest),
            snd (close_boxes io rest))
  end.
Proof.
  simpl. destruct (close_boxes io rest). reflexivity.
Qed.

Lemma quiet_box_dec io fn :
  quiet_box io fn <->
  match flush_ends (io fn) with
  | FlushRaisesOther => False
  | _ => close_raises (io fn) = false
  end.
Proof.
  unfold quiet_box.
  destruct (flush_ends (io fn)); split;
    try (intros [H _]; exact H);
    try (intro H; split; [exact H|discriminate]).
  - intros [_ H]. now apply H.
  - intros [].
Qed.

(** The boxes on which nothing raises past line 107 are flushed and
    closed, and the loop of line 104 goes on. *)
Lemma close_boxes_quiet io pre rest :
  Forall (quiet_box io) pre ->
  close_boxes io (pre ++ rest) =
  (flat_map (fun fn => [Flush fn; Close fn]) pre ++ fst (close_boxes io rest),
   snd (close_boxes io rest)).
Proof.
  induction 1 as [|fn pre Hq Hpre IH].
  - simpl app. now destruct (close_boxes io rest).
  - change ((fn :: pre) ++ rest) with (fn :: (pre ++ rest)).
    rewrite close_boxes_cons, IH. apply quiet_box_dec in Hq.
    cbn [fst snd flat_map app].
    destruct (flush_ends (io fn)); [now rewrite Hq|now rewrite Hq|destruct Hq].
Qed.

(** The first box on which something raises past line 107 ends it. *)
Lemma close_boxes_stop io fn rest :
  ~ quiet_box io fn ->
  close_boxes io (fn :: rest) =
  (match flush_ends (io fn) with
   | FlushRaisesOther => [Flush fn]
   | _ => [Flush fn; Close fn]
   end, Raised).
Proof.
  intro Hq. rewrite close_boxes_cons. rewrite quiet_box_dec in Hq.
  destruct (flush_ends (io fn)); try reflexivity;
    (destruct (close_raises (io fn)); [reflexivity|now destruct Hq]).
Qed.

(** X11: the [finally] block goes through the boxes in the order in which
    they were opened and calls [flush] and then [close] on each, whether
    [flush] raised an [Exception] or not, up to the first box whose [close]
    raises or whose [flush] raises something that is not an [Exception]:
    that call is the last one made, no later box is flushed or closed, the
    source is not closed, and an exception leaves [main].  When there is
    no such box every box is flushed and closed, the source is closed, and
    [main] ends as the loop did.  This holds however the loop was left. *)
Theorem teardown_exact prefix script io :
  (Forall (quiet_box io) (opened (reached prefix script)) ->
   snd (fst (main prefix script io)) = all_closed (opened (reached prefix script)) /\
   snd (main prefix script io) = snd (loop prefix script init)) /\
  (forall pre fn post,
     opened (reached prefix script) = pre ++ fn :: post ->
     Forall (quiet_box io) pre -> ~ quiet_box io fn ->
     snd (main prefix script io) = Raised /\
     (flush_ends (io fn) = FlushRaisesOther ->
      snd (fst (main prefix script io)) =
      flat_map (fun fn => [Flush fn; Close fn]) pre ++ [Flush fn]) /\
     (flush_ends (io fn) <> FlushRaisesOther ->
      snd (fst (main prefix script io)) =
      flat_map (fun fn => [Flush fn; Close fn]) pre ++ [Flush fn; Close fn])).
Proof.
  pose proof (loop_consistent prefix script init_consistent) as (Hk & _).
  unfold main, reached, all_closed, finally in *.
  destruct (loop prefix script init) as [st e1]. cbn [fst snd] in *. rewrite Hk.
  split.
  - intro Hq. pose proof (@close_boxes_quiet io _ [] Hq) as H.
    rewrite app_nil_r in H. rewrite H. cbn [close_boxes fst snd].
    rewrite app_nil_r. split; [reflexivity|now destruct e1].
  - intros pre fn post Ho Hpre Hfn. rewrite Ho.
    rewrite (@close_boxes_quiet io pre (fn :: post) Hpre).
    rewrite (@close_boxes_stop io fn post Hfn). cbn [fst snd].
    split; [now destruct e1|].
    split; intro Hf.
    + now rewrite Hf.
    + destruct (flush_ends (io fn)); [reflexivity|reflexivity|now destruct Hf].
Qed.

Lemma teardown_exact_witness :
  snd (fst (main (py "split_") two_messages second_flush_interrupted)) =
  [Flush (py "split_Inbox.mbox"); Close (py "split_Inbox.mbox");
   Flush (py "split_Sent.mbox")].
Proof.
  apply (proj2 (teardown_exact (py "split_") two_messages second_flush_interrupted)
               [py "split_Inbox.mbox"] (py "split_Sent.mbox") []).
  - reflexivity.
  - repeat constructor; discriminate.
  - intros [_ H]. now apply H.
  - reflexivity.
Defined.




(** ** The options and the progress lines *)

Lemma names_apart opt : names_infile opt = true -> names_prefix opt = false.
Proof.
  unfold names_infile. intro H.
  apply orb_true_iff in H as [H|H]; apply str_eqb_eq in H; subst;
    vm_compute; reflexivity.
Qed.

Lemma read_opts_snoc opts oa :
  read_opts (opts ++ [oa]) = set_opt (read_opts opts) oa.
Proof. unfold read_opts. now rewrite fold_left_app. Qed.

Lemma last_arg_snoc p opts opt arg :
  last_arg p (opts ++ [(opt, arg)]) =
  if p opt then Some arg else last_arg p opts.
Proof.
  unfold last_arg. rewrite rev_app_distr. cbn [rev app find fst snd].
  destruct (p opt); reflexivity.
Qed.

(** X13: of the options that [getopt] returns, the last [-i] or
    [--infile] gives the file that is read and the last [-p] or
    [--prefix] gives the prefix of the files written, the short and the
    long form counting as the same option; without one the file is
    [inbox.mbox], without the other the prefix is [split_]; neither
    option touches the other's setting. *)
Theorem last_option_wins opts :
  in_mbox (read_opts opts) =
    match last_arg names_infile opts with
    | Some a => a
    | None => py "inbox.mbox"
    end /\
  out_prefix (read_opts opts) =
    match last_arg names_prefix opts with
    | Some a => a
    | None => py "split_"
    end.
Proof.
  induction opts as [|[opt arg] opts [IH1 IH2]] using rev_ind.
  - split; reflexivity.
  - rewrite read_opts_snoc, !last_arg_snoc. unfold set_opt.
    destruct (names_infile opt) eqn:Ei.
    + rewrite (names_apart _ Ei). split; [reflexivity|exact IH2].
    + destruct (names_prefix opt); split; (reflexivity || assumption).
Qed.

Lemma progress_cons n m rest :
  progress n (m :: rest) =
  if labelled m then
    (fst (progress (S n) rest),
     if (S n mod every =? 0)%nat then S n :: snd (progress (S n) rest)
     else snd (progress (S n) rest))
  else progress (S n) rest.
Proof.
  cbn [progress]. destruct (labelled m); [|reflexivity].
  destruct (progress (S n) rest). reflexivity.
Qed.

Lemma nth_error_shift (m : message) rest k n :
  (S n < k)%nat ->
  nth_error (m :: rest) (k - n - 1) = nth_error rest (k - S n - 1).
Proof.
  intro H. replace (k - n - 1)%nat with (S (k - S n - 1)) by lia. reflexivity.
Qed.

Lemma progress_from msgs : forall n,
  fst (progress n msgs) = (n + List.length msgs)%nat /\
  forall k,
    In k (snd (progress n msgs)) <->
    (n < k)%nat /\ (k mod every = 0)%nat /\
    exists m, nth_error msgs (k - n - 1) = Some m /\ labelled m = true.
Proof.
  induction msgs as [|m rest IH]; intro n.
  - split; [cbn [progress fst List.length]; lia|].
    intro k. cbn [progress snd]. split; [intros []|].
    intros (_ & _ & m & H & _). destruct (k - n - 1)%nat; discriminate.
  - destruct (IH (S n)) as [IH1 IH2]. rewrite progress_cons.
    assert (Hstep : forall k,
      ((n < k)%nat /\ (k mod every = 0)%nat /\
       exists m', nth_error (m :: rest) (k - n - 1) = Some m' /\ labelled m' = true) <->
      ((k = S n /\ (S n mod every = 0)%nat /\ labelled m = true) \/
       In k (snd (progress (S n) rest)))).
    { intro k. rewrite IH2. split.
      - intros (H1 & H2 & m' & H3 & H4).
        destruct (Nat.eq_dec k (S n)) as [->|Hne].
        + left. replace (S n - n - 1)%nat with 0%nat in H3 by lia.
          injection H3 as ->. auto.
        + right. rewrite nth_error_shift in H3 by lia.
          split; [lia|]. split; [assumption|]. now exists m'.
      - intros [(-> & H2 & H3)|(H1 & H2 & m' & H3 & H4)].
        + split; [lia|]. split; [assumption|]. exists m.
          replace (S n - n - 1)%nat with 0%nat by lia. now split.
        + split; [lia|]. split; [assumption|]. exists m'.
          rewrite nth_error_shift by lia. now split. }
    destruct (labelled m) eqn:El.
    + cbn [fst snd]. split; [rewrite IH1; cbn [List.length]; lia|].
      intro k. rewrite Hstep.
      destruct (S n mod every =? 0)%nat eqn:Em.
      * apply Nat.eqb_eq in Em. cbn [In]. split.
        -- intros [H|H]; [left; now subst|now right].
        -- intros [(H & _)|H]; [left; now symmetry|now right].
      * apply Nat.eqb_neq in Em. split; [now right|].
        intros [(_ & H & _)|H]; [contradiction|assumption].
    + split; [rewrite IH1; cbn [List.length]; lia|].
      intro k. rewrite Hstep. split; [now right|].
      intros [(_ & _ & H)|H]; [discriminate|assumption].
Qed.

(** X14: when no exception leaves the loop, the counter [n] ends at the
    number of messages, and a progress line showing [k] is printed exactly
    when [k] is a positive multiple of 2000 and the [k]-th message has a
    label header that is not empty: a message without labels is counted but
    passes the test of line 99 by, so that no line is printed at a multiple
    of 2000 that falls on one. *)
Theorem progress_lines msgs :
  fst (progress 0 msgs) = List.length msgs /\
  forall k,
    In k (snd (progress 0 msgs)) <->
    (1 <= k)%nat /\ (k mod every = 0)%nat /\
    exists m, nth_error msgs (k - 1) = Some m /\ labelled m = true.
Proof.
  destruct (progress_from msgs 0) as [H1 H2]. split; [exact H1|].
  intro k. rewrite H2. replace (k - 0 - 1)%nat with (k - 1)%nat by lia.
  split; intros (H & H'); (split; [lia|exact H']).
Qed.
